(** * Task List Manager: a shallow embedding of [index.js]

    The program keeps a list of tasks in one JSON file, [tasks.json], and
    exposes three tools ([add_task], [list_tasks], [complete_task]) and one
    resource ([task_list]).  Every handler reloads the file, works on the
    array it got, and rewrites the whole file when it changed something.

    The development has three layers:
    - the platform: text, [JSON.parse] / [JSON.stringify] and [fs];
    - the program: [readTasks], [writeTasks], [getNextId] and the handlers,
      written in a small state-and-exception monad over the file;
    - the properties of the store.

    Modelling decisions, once and for all:
    - text is a [string], the UTF-8 bytes of the JavaScript string;
    - a task id is a JavaScript number, a double; a record carries the
      integer it stands for, in [Z].  The one place where the program
      computes with ids, the addition in [getNextId], is done in doubles
      ([Number_add]): it is the integer sum up to 2^53 and rounds above.
      Reading and printing ids is taken as exact, which it is for every id
      below 2^53 in magnitude; the properties about the arithmetic of ids
      carry that bound as a hypothesis;
    - the current time is an input of [add_task] (the ISO-8601 text that
      [new Date().toISOString()] returns);
    - the file is absent, holds a text, or fails every access with an errno
      other than ENOENT;
    - [readTasks] returns whatever JSON value the file holds; the handlers
      are followed on arrays of task records (the four fields [add_task]
      writes, in that order), which is what the program itself stores.  On
      any other JSON value a handler's run is left out of the model;
    - limits of the engine (the length of an array, the number of
      arguments a call can spread) are not modelled. *)

Set Warnings "-register-all".

From Stdlib Require Import Bool List ZArith Lia String Ascii Permutation.
From Stdlib Require Import Decimal DecimalString DecimalFacts DecimalPos DecimalN DecimalZ.
Import ListNotations.

Open Scope string_scope.

(** ** Characters *)

Module Char.

Definition dquote : ascii := Eval compute in ascii_of_nat 34.
Definition backslash : ascii := Eval compute in ascii_of_nat 92.
Definition LF : ascii := Eval compute in ascii_of_nat 10.
Definition CR : ascii := Eval compute in ascii_of_nat 13.
Definition TAB : ascii := Eval compute in ascii_of_nat 9.
Definition BS : ascii := Eval compute in ascii_of_nat 8.
Definition FF : ascii := Eval compute in ascii_of_nat 12.

(** JSON white space: space, tab, line feed, carriage return. *)
Definition is_ws (c : ascii) : bool :=
  Ascii.eqb c " " || Ascii.eqb c TAB || Ascii.eqb c LF || Ascii.eqb c CR.

(** Control characters may not appear raw inside a JSON string. *)
Definition is_control (c : ascii) : bool := (N_of_ascii c <? 32)%N.

Definition digit_of_char (c : ascii) : option (uint -> uint) :=
  match c with
  | "0" => Some D0 | "1" => Some D1 | "2" => Some D2 | "3" => Some D3
  | "4" => Some D4 | "5" => Some D5 | "6" => Some D6 | "7" => Some D7
  | "8" => Some D8 | "9" => Some D9
  | _ => None
  end%char.

Definition is_digit (c : ascii) : bool :=
  match digit_of_char c with Some _ => true | None => false end.

(** The value of a hexadecimal digit, in either case. *)
Definition hex_of_char (c : ascii) : option N :=
  let n := N_of_ascii c in
  (if (48 <=? n) && (n <=? 57) then Some (n - 48)
   else if (97 <=? n) && (n <=? 102) then Some (n - 87)
   else if (65 <=? n) && (n <=? 70) then Some (n - 55)
   else None)%N.

(** Lower-case hexadecimal digit, as [JSON.stringify] prints it. *)
Definition char_of_hex (n : N) : ascii :=
  match n with
  | 0 => "0" | 1 => "1" | 2 => "2" | 3 => "3" | 4 => "4" | 5 => "5"
  | 6 => "6" | 7 => "7" | 8 => "8" | 9 => "9" | 10 => "a" | 11 => "b"
  | 12 => "c" | 13 => "d" | 14 => "e" | _ => "f"
  end%char%N.

End Char.

(** ** JSON *)

Module JSON.
Import Char.

(** A number literal, kept as its parts: sign, integer digits, fraction
    digits ([Nil] when there is no fraction) and exponent. *)
Record number := mkNumber {
  negative : bool;
  integer : uint;
  fraction : uint;
  exponent : option (bool * uint)
}.

Inductive json :=
| JNull
| JBool (b : bool)
| JNumber (n : number)
| JString (s : string)
| JArray (elements : list json)
| JObject (members : list (string * json)).

(** The integer a literal denotes, when it is written as a plain integer.
    [JSON.parse] gives the double next to it, which is this integer
    whenever a double holds it: always up to 2^53 in magnitude. *)
Definition integer_value (n : number) : option Z :=
  match fraction n, exponent n with
  | Nil, None =>
      Some (if negative n then - Z.of_uint (integer n) else Z.of_uint (integer n))%Z
  | _, _ => None
  end.

(** *** Reading *)

Fixpoint skip_ws (s : string) : string :=
  match s with
  | String c r => if is_ws c then skip_ws r else s
  | EmptyString => s
  end.

(** The longest run of digits at the head of [s]. *)
Fixpoint scan_digits (s : string) : uint * string :=
  match s with
  | String c r =>
      match digit_of_char c with
      | Some D => let (d, r') := scan_digits r in (D d, r')
      | None => (Nil, s)
      end
  | EmptyString => (Nil, s)
  end.

(** [0] alone, or digits that do not start with [0]. *)
Definition int_digits_ok (d : uint) : bool :=
  match d with
  | Nil => false
  | D0 Nil => true
  | D0 _ => false
  | _ => true
  end.

Definition parse_fraction (s : string) : option (uint * string) :=
  match s with
  | String c r =>
      if Ascii.eqb c "." then
        match scan_digits r with
        | (Nil, _) => None
        | (f, r') => Some (f, r')
        end
      else Some (Nil, s)
  | EmptyString => Some (Nil, s)
  end.

Definition parse_sign (s : string) : bool * string :=
  match s with
  | String c r => if Ascii.eqb c "-" then (true, r) else (false, s)
  | EmptyString => (false, s)
  end.

Definition parse_exp_digits (neg : bool) (s : string) : option (option (bool * uint) * string) :=
  match scan_digits s with
  | (Nil, _) => None
  | (e, r) => Some (Some (neg, e), r)
  end.

Definition parse_exponent (s : string) : option (option (bool * uint) * string) :=
  match s with
  | String c r =>
      if Ascii.eqb c "e" || Ascii.eqb c "E" then
        match r with
        | String c' r' =>
            if Ascii.eqb c' "+" then parse_exp_digits false r'
            else let (neg, r'') := parse_sign r in parse_exp_digits neg r''
        | EmptyString => None
        end
      else Some (None, s)
  | EmptyString => Some (None, s)
  end.

Definition parse_number (s : string) : option (number * string) :=
  let (neg, s1) := parse_sign s in
  let (i, s2) := scan_digits s1 in
  if int_digits_ok i then
    match parse_fraction s2 with
    | Some (f, s3) =>
        match parse_exponent s3 with
        | Some (e, s4) => Some (mkNumber neg i f e, s4)
        | None => None
        end
    | None => None
    end
  else None.

(** UTF-8 bytes of a code point (a lone surrogate keeps its three-byte
    form). *)
Definition byte (n : N) : ascii := ascii_of_N (n mod 256).

Definition utf8 (cp : N) : string :=
  (if cp <? 128 then String (byte cp) ""
   else if cp <? 2048 then
     String (byte (192 + cp / 64)) (String (byte (128 + cp mod 64)) "")
   else if cp <? 65536 then
     String (byte (224 + cp / 4096))
       (String (byte (128 + (cp / 64) mod 64))
          (String (byte (128 + cp mod 64)) ""))
   else
     String (byte (240 + cp / 262144))
       (String (byte (128 + (cp / 4096) mod 64))
          (String (byte (128 + (cp / 64) mod 64))
             (String (byte (128 + cp mod 64)) ""))))%N.

Definition hex4 (a b c d : ascii) : option N :=
  match hex_of_char a, hex_of_char b, hex_of_char c, hex_of_char d with
  | Some x, Some y, Some z, Some w => Some (((x * 16 + y) * 16 + z) * 16 + w)%N
  | _, _, _, _ => None
  end.

Definition is_high_surrogate (u : N) : bool := ((55296 <=? u) && (u <? 56320))%N.
Definition is_low_surrogate (u : N) : bool := ((56320 <=? u) && (u <? 57344))%N.

Definition pair_code_point (hi lo : N) : N :=
  (65536 + (hi - 55296) * 1024 + (lo - 56320))%N.

(** The character a one-letter escape stands for. *)
Definition unescape (e : ascii) : option ascii :=
  if Ascii.eqb e dquote then Some dquote
  else if Ascii.eqb e backslash then Some backslash
  else if Ascii.eqb e "/" then Some "/"%char
  else if Ascii.eqb e "b" then Some BS
  else if Ascii.eqb e "f" then Some FF
  else if Ascii.eqb e "n" then Some LF
  else if Ascii.eqb e "r" then Some CR
  else if Ascii.eqb e "t" then Some TAB
  else None.

Definition prepend (p : string) (x : option (string * string)) : option (string * string) :=
  match x with
  | Some (t, rest) => Some (p ++ t, rest)
  | None => None
  end.

(** The low surrogate escaped at the head of [s], if any. *)
Definition low_escape (s : string) : option N :=
  match s with
  | String b (String u (String h1 (String h2 (String h3 (String h4 _))))) =>
      if Ascii.eqb b backslash && Ascii.eqb u "u" then
        match hex4 h1 h2 h3 h4 with
        | Some lo => if is_low_surrogate lo then Some lo else None
        | None => None
        end
      else None
  | _ => None
  end.

(** The characters of a string literal, after its opening quote, up to and
    including the closing quote. *)
Fixpoint parse_chars (s : string) : option (string * string) :=
  match s with
  | EmptyString => None
  | String c r =>
      if Ascii.eqb c dquote then Some ("", r)
      else if Ascii.eqb c backslash then
        match r with
        | String e r1 =>
            if Ascii.eqb e "u" then
              match r1 with
              | String h1 (String h2 (String h3 (String h4 r2))) =>
                  match hex4 h1 h2 h3 h4 with
                  | Some cu =>
                      match (if is_high_surrogate cu then low_escape r2 else None), r2 with
                      | Some lo, String _ (String _ (String _ (String _ (String _ (String _ r3))))) =>
                          prepend (utf8 (pair_code_point cu lo)) (parse_chars r3)
                      | _, _ => prepend (utf8 cu) (parse_chars r2)
                      end
                  | None => None
                  end
              | _ => None
              end
            else
              match unescape e with
              | Some c' => prepend (String c' "") (parse_chars r1)
              | None => None
              end
        | EmptyString => None
        end
      else if is_control c then None
      else prepend (String c "") (parse_chars r)
  end.

(** [s] without its prefix [lit], when it starts with it. *)
Fixpoint strip_prefix (lit s : string) : option string :=
  match lit with
  | EmptyString => Some s
  | String a lit' =>
      match s with
      | String b s' => if Ascii.eqb a b then strip_prefix lit' s' else None
      | EmptyString => None
      end
  end.

Definition expect (lit : string) (v : json) (s : string) : option (json * string) :=
  match strip_prefix lit s with
  | Some rest => Some (v, rest)
  | None => None
  end.

Definition wrap {A B} (f : A -> B) (x : option (A * string)) : option (B * string) :=
  match x with
  | Some (a, rest) => Some (f a, rest)
  | None => None
  end.

(** Recursive descent; the fuel bounds the nesting of calls. *)
Fixpoint parse_value (fuel : nat) (s : string) {struct fuel} : option (json * string) :=
  match fuel with
  | O => None
  | S n =>
      match skip_ws s with
      | EmptyString => None
      | String c r as s' =>
          if is_digit c || Ascii.eqb c "-" then wrap JNumber (parse_number s')
          else if Ascii.eqb c "n" then expect "null" JNull s'
          else if Ascii.eqb c "t" then expect "true" (JBool true) s'
          else if Ascii.eqb c "f" then expect "false" (JBool false) s'
          else if Ascii.eqb c dquote then wrap JString (parse_chars r)
          else if Ascii.eqb c "[" then
            match skip_ws r with
            | String c' rest =>
                if Ascii.eqb c' "]" then Some (JArray [], rest)
                else wrap JArray (parse_elements n r)
            | EmptyString => None
            end
          else if Ascii.eqb c "{" then
            match skip_ws r with
            | String c' rest =>
                if Ascii.eqb c' "}" then Some (JObject [], rest)
                else wrap JObject (parse_members n r)
            | EmptyString => None
            end
          else None
      end
  end

with parse_elements (fuel : nat) (s : string) {struct fuel} : option (list json * string) :=
  match fuel with
  | O => None
  | S n =>
      match parse_value n s with
      | Some (v, rest) =>
          match skip_ws rest with
          | String c rest' =>
              if Ascii.eqb c "," then wrap (cons v) (parse_elements n rest')
              else if Ascii.eqb c "]" then Some ([v], rest')
              else None
          | EmptyString => None
          end
      | None => None
      end
  end

with parse_members (fuel : nat) (s : string) {struct fuel} : option (list (string * json) * string) :=
  match fuel with
  | O => None
  | S n =>
      match skip_ws s with
      | String c r =>
          if Ascii.eqb c dquote then
            match parse_chars r with
            | Some (k, rest) =>
                match skip_ws rest with
                | String c1 rest1 =>
                    if Ascii.eqb c1 ":" then
                      match parse_value n rest1 with
                      | Some (v, rest2) =>
                          match skip_ws rest2 with
                          | String c2 rest3 =>
                              if Ascii.eqb c2 "," then
                                wrap (cons (k, v)) (parse_members n rest3)
                              else if Ascii.eqb c2 "}" then Some ([(k, v)], rest3)
                              else None
                          | EmptyString => None
                          end
                      | None => None
                      end
                    else None
                | EmptyString => None
                end
            | None => None
            end
          else None
      | EmptyString => None
      end
  end.

(** [JSON.parse]: [None] stands for the [SyntaxError] it throws.  Each
    nested call consumes a character or follows one that did, so twice the
    length of the text is fuel enough ([parse_fuel] below). *)
Definition parse (text : string) : option json :=
  match parse_value (2 * String.length text + 2) text with
  | Some (v, rest) =>
      match skip_ws rest with
      | EmptyString => Some v
      | _ => None
      end
  | None => None
  end.

End JSON.

(** ** The platform: errors, the file, the console *)

Module Platform.
Import Char.

(** The ways an access to the file fails, other than its absence. *)
Inductive errno := EACCES | EPERM | EISDIR | EMFILE | EIO.

Definition errno_code (e : errno) : string :=
  match e with
  | EACCES => "EACCES"
  | EPERM => "EPERM"
  | EISDIR => "EISDIR"
  | EMFILE => "EMFILE"
  | EIO => "EIO"
  end.

(** The exceptions the program meets: a system error carries a [code], a
    [SyntaxError] has none. *)
Inductive error :=
| SystemError (code : string)
| SyntaxError.

(** [error.code] ([None] for [undefined]). *)
Definition code (e : error) : option string :=
  match e with
  | SystemError c => Some c
  | SyntaxError => None
  end.

(** [error.code === c] *)
Definition code_is (e : error) (c : string) : bool :=
  match code e with
  | Some c' => String.eqb c' c
  | None => false
  end.

(** [error instanceof SyntaxError] *)
Definition instanceof_SyntaxError (e : error) : bool :=
  match e with
  | SyntaxError => true
  | SystemError _ => false
  end.

(** [tasks.json] *)
Inductive file :=
| Absent
| Holds (text : string)
| Failing (e : errno).

Record world := mkWorld {
  TASKS_FILE : file;
  stderr : list string
}.

Inductive completion (A : Type) :=
| Returns (a : A)
| Throws (e : error).
Arguments Returns {A} a.
Arguments Throws {A} e.

(** A computation runs on a world and completes in a new one.  [None] is
    for the runs the typed model does not follow: a file whose JSON is not
    an array of task records. *)
Definition M (A : Type) : Type := world -> option (completion A * world).

Definition ret {A} (a : A) : M A := fun w => Some (Returns a, w).

Definition throw {A} (e : error) : M A := fun w => Some (Throws e, w).

Definition bind {A B} (m : M A) (k : A -> M B) : M B :=
  fun w =>
    match m w with
    | Some (Returns a, w') => k a w'
    | Some (Throws e, w') => Some (Throws e, w')
    | None => None
    end.

(** [try { body } catch (error) { handler }] *)
Definition try_catch {A} (body : M A) (handler : error -> M A) : M A :=
  fun w =>
    match body w with
    | Some (Throws e, w') => handler e w'
    | r => r
    end.

(** Leaves the typed model on [None]. *)
Definition typed {A} (o : option A) : M A :=
  fun w =>
    match o with
    | Some a => Some (Returns a, w)
    | None => None
    end.

Declare Scope js_scope.
Delimit Scope js_scope with js.
Notation "x <- m ;; k" := (bind m (fun x => k))
  (at level 61, m at next level, right associativity) : js_scope.
Notation "m ;; k" := (bind m (fun _ => k))
  (at level 61, right associativity) : js_scope.

(** [fs.readFile(TASKS_FILE, "utf-8")] *)
Definition fs_readFile : M string :=
  fun w =>
    match TASKS_FILE w with
    | Absent => Some (Throws (SystemError "ENOENT"), w)
    | Holds text => Some (Returns text, w)
    | Failing e => Some (Throws (SystemError (errno_code e)), w)
    end.

(** [fs.writeFile(TASKS_FILE, data, "utf-8")]: creates or replaces. *)
Definition fs_writeFile (data : string) : M unit :=
  fun w =>
    match TASKS_FILE w with
    | Failing e => Some (Throws (SystemError (errno_code e)), w)
    | _ => Some (Returns tt, mkWorld (Holds data) (stderr w))
    end.

(** [console.error(msg)] *)
Definition console_error (msg : string) : M unit :=
  fun w => Some (Returns tt, mkWorld (TASKS_FILE w) (stderr w ++ [msg])).

(** [JSON.parse(text)] *)
Definition JSON_parse (text : string) : M JSON.json :=
  fun w =>
    match JSON.parse text with
    | Some v => Some (Returns v, w)
    | None => Some (Throws SyntaxError, w)
    end.

(** [String(n)] for an integer [n], as a template literal prints it: the
    decimal digits.  (From 10^21 on JavaScript prints a number in exponent
    form; such magnitudes are left to the digits here.) *)
Definition Number_toString (n : Z) : string :=
  NilZero.string_of_int (Z.to_int n).

(** The largest integer [n] such that [n] and [n + 1] are both doubles. *)
Definition MAX_SAFE_INTEGER : Z := 9007199254740991.

(** The Number value for an integer: the double next to it.  A double has
    53 significant bits; an integer that needs more loses its low bits,
    rounded to the nearest double and, half way between two, to the one
    whose last significant bit is 0.  (Doubles end near 1.8 * 10^308; the
    sum of a double and 1 stays below that.) *)
Definition Number_value (z : Z) : Z :=
  let m := Z.abs z in
  let low := (Z.log2 m - 52)%Z in
  if (low <=? 0)%Z then z
  else
    let significand := Z.shiftr m low in
    let rest := (m - Z.shiftl significand low)%Z in
    let half := Z.shiftl 1 (low - 1) in
    let up := (half <? rest)%Z || ((half =? rest)%Z && Z.odd significand) in
    (Z.sgn z * Z.shiftl (if up then significand + 1 else significand) low)%Z.

(** [x + y] on numbers that hold integers: the exact sum, rounded. *)
Definition Number_add (x y : Z) : Z := Number_value (x + y).

End Platform.

(** ** The program *)

Import Char Platform.
Open Scope js_scope.

(** A task record, with the four fields [add_task] gives it. *)
Record Task := mkTask {
  id : Z;
  title : string;
  completed : bool;
  createdAt : string
}.

(** *** [JSON.stringify(tasks, null, 2)] on an array of task records *)

(** [QuoteJSONString], character by character. *)
Definition quote_char (c : ascii) : string :=
  if Ascii.eqb c dquote then String backslash (String dquote "")
  else if Ascii.eqb c backslash then String backslash (String backslash "")
  else if Ascii.eqb c BS then String backslash "b"
  else if Ascii.eqb c FF then String backslash "f"
  else if Ascii.eqb c LF then String backslash "n"
  else if Ascii.eqb c CR then String backslash "r"
  else if Ascii.eqb c TAB then String backslash "t"
  else if is_control c then
    String backslash
      (String "u" (String "0" (String "0"
         (String (char_of_hex (N_of_ascii c / 16))
            (String (char_of_hex (N_of_ascii c mod 16)) "")))))
  else String c "".

Fixpoint quote_chars (s : string) : string :=
  match s with
  | EmptyString => EmptyString
  | String c r => quote_char c ++ quote_chars r
  end.

Definition quote (s : string) : string :=
  String dquote (quote_chars s ++ String dquote "").

Definition stringify_bool (b : bool) : string :=
  if b then "true" else "false".

(** One property of a record, at the record's indentation (four spaces). *)
Definition property (key value : string) : string :=
  "    " ++ quote key ++ ": " ++ value.

(** A record nested in the array: its closing brace is indented by two. *)
Definition stringify_task (t : Task) : string :=
  "{" ++ String LF
    (String.concat (String "," (String LF ""))
       [ property "id" (Number_toString (id t));
         property "title" (quote (title t));
         property "completed" (stringify_bool (completed t));
         property "createdAt" (quote (createdAt t)) ])
  ++ String LF "  }".

Definition JSON_stringify (tasks : list Task) : string :=
  match tasks with
  | [] => "[]"
  | _ =>
      "[" ++ String LF
        (String.concat (String "," (String LF ""))
           (map (fun t => "  " ++ stringify_task t) tasks))
      ++ String LF "]"
  end.

(** *** The typed view of what [JSON.parse] returned *)

Definition as_task (v : JSON.json) : option Task :=
  match v with
  | JSON.JObject
      [ (k1, JSON.JNumber n); (k2, JSON.JString t);
        (k3, JSON.JBool c); (k4, JSON.JString d) ] =>
      if String.eqb k1 "id" && String.eqb k2 "title"
         && String.eqb k3 "completed" && String.eqb k4 "createdAt"
      then
        match JSON.integer_value n with
        | Some i => Some (mkTask i t c d)
        | None => None
        end
      else None
  | _ => None
  end.

Fixpoint as_task_list (l : list JSON.json) : option (list Task) :=
  match l with
  | [] => Some []
  | v :: l' =>
      match as_task v, as_task_list l' with
      | Some t, Some ts => Some (t :: ts)
      | _, _ => None
      end
  end.

(** An array whose elements are records of exactly the four fields, in the
    order [add_task] writes them, with an integer literal for [id]. *)
Definition as_tasks (v : JSON.json) : option (list Task) :=
  match v with
  | JSON.JArray l => as_task_list l
  | _ => None
  end.

(** *** Helpers *)

Definition writeTasks (tasks : list Task) : M unit :=
  fs_writeFile (JSON_stringify tasks).

Definition readTasks : M JSON.json :=
  try_catch
    (data <- fs_readFile ;;
     JSON_parse data)
    (fun error =>
       if code_is error "ENOENT" then
         console_error "tasks.json not found — creating it with an empty list." ;;
         writeTasks [] ;;
         ret (JSON.JArray [])
       else if instanceof_SyntaxError error then
         console_error "tasks.json contains invalid JSON — resetting to empty list." ;;
         writeTasks [] ;;
         ret (JSON.JArray [])
       else throw error).

(** [Math.max(x, ...xs)] *)
Definition Math_max (x : Z) (xs : list Z) : Z := fold_left Z.max xs x.

Definition getNextId (tasks : list Task) : Z :=
  match map id tasks with
  | [] => 1
  | x :: xs => Number_add (Math_max x xs) 1
  end.

(** *** Tools and resource *)

Record tool_result := mkResult {
  isError : bool;
  text : string
}.

Record resource_result := mkResource {
  uri : string;
  mimeType : string;
  contents : string
}.

Definition content (s : string) : tool_result := mkResult false s.

Definition add_task (now : string) (input_title : string) : M tool_result :=
  loaded <- readTasks ;;
  tasks <- typed (as_tasks loaded) ;;
  let newTask := mkTask (getNextId tasks) input_title false now in
  let tasks := (tasks ++ [newTask])%list in
  writeTasks tasks ;;
  ret (content
         ("Task added successfully!" ++ String LF (String LF
          ("  ID:    " ++ Number_toString (id newTask) ++ String LF
          ("  Title: " ++ title newTask ++ String LF
          ("  Date:  " ++ createdAt newTask)))))).

Definition status (t : Task) : string :=
  if completed t then "done" else "pending".

Definition format_task (t : Task) : string :=
  "[" ++ Number_toString (id t) ++ "] " ++ title t ++ "  (" ++ status t
  ++ ")  — created " ++ createdAt t.

Definition list_tasks : M tool_result :=
  loaded <- readTasks ;;
  tasks <- typed (as_tasks loaded) ;;
  if Nat.eqb (List.length tasks) 0 then
    ret (content "No tasks yet. Use add_task to create one!")
  else
    let formatted := String.concat (String LF "") (map format_task tasks) in
    ret (content
           ("Tasks (" ++ Number_toString (Z.of_nat (List.length tasks)) ++ "):"
            ++ String LF (String LF formatted))).

(** [tasks.find(p)]: the first element that satisfies [p].  It is a
    reference into the array, so the model returns its position with it. *)
Fixpoint find {A} (p : A -> bool) (l : list A) : option (nat * A) :=
  match l with
  | [] => None
  | x :: l' =>
      if p x then Some (O, x)
      else option_map (fun r => (S (fst r), snd r)) (find p l')
  end.

(** [tasks[i].completed = true] *)
Fixpoint set_completed (i : nat) (tasks : list Task) {struct tasks} : list Task :=
  match tasks, i with
  | [], _ => []
  | t :: ts, O => mkTask (id t) (title t) true (createdAt t) :: ts
  | t :: ts, S j => t :: set_completed j ts
  end.

(** A title between plain double quotes, as the messages show it. *)
Definition quote_plain (s : string) : string :=
  String dquote (s ++ String dquote "").

Definition complete_task (input_id : Z) : M tool_result :=
  loaded <- readTasks ;;
  tasks <- typed (as_tasks loaded) ;;
  match find (fun t => Z.eqb (id t) input_id) tasks with
  | None =>
      ret (mkResult true
             ("Error: No task found with ID " ++ Number_toString input_id ++ "."))
  | Some (ref, task) =>
      if completed task then
        ret (content
               ("Task " ++ Number_toString input_id ++ " (" ++ quote_plain (title task)
                ++ ") is already marked as completed."))
      else
        let tasks := set_completed ref tasks in
        writeTasks tasks ;;
        ret (content
               ("Task " ++ Number_toString input_id ++ " (" ++ quote_plain (title task)
                ++ ") marked as completed!"))
  end.

(** The function written for the resource, the last argument of the
    [server.resource] call.  The call gives a description text before it;
    what the SDK makes of these arguments when a client reads the resource
    is not in [index.js], and [task_list] is a call of the function as it
    is written. *)
Definition task_list : M resource_result :=
  loaded <- readTasks ;;
  tasks <- typed (as_tasks loaded) ;;
  ret (mkResource "tasks://list" "application/json" (JSON_stringify tasks)).

(** *** The earlier [readTasks]

    The repository also carries the first version of the helper, which
    starts fresh on a missing or invalid file without writing anything. *)

Module Original.

Definition readTasks : M JSON.json :=
  try_catch
    (data <- fs_readFile ;;
     JSON_parse data)
    (fun error =>
       if code_is error "ENOENT" || instanceof_SyntaxError error then
         ret (JSON.JArray [])
       else throw error).

End Original.

(** ** Notions used by the properties *)

(** The collection the file holds: its text parses to an array of task
    records. *)
Definition stored (w : world) : option (list Task) :=
  match TASKS_FILE w with
  | Holds text =>
      match JSON.parse text with
      | Some v => as_tasks v
      | None => None
      end
  | _ => None
  end.

(** The file is there but [JSON.parse] rejects its text. *)
Definition unparsable (w : world) : bool :=
  match TASKS_FILE w with
  | Holds text =>
      match JSON.parse text with
      | Some _ => false
      | None => true
      end
  | _ => false
  end.

Definition absent (w : world) : bool :=
  match TASKS_FILE w with
  | Absent => true
  | _ => false
  end.

(** The collection a handler works on: the stored one, or the empty one
    when the file is absent or unparsable. *)
Definition collection (w : world) : option (list Task) :=
  if absent w || unparsable w then Some [] else stored w.

(** The world right after [readTasks] recovered: the file is reset and one
    line went to the console. *)
Definition recovered (w : world) (msg : string) : world :=
  mkWorld (Holds "[]") (stderr w ++ [msg]).

Definition not_found_msg : string :=
  "tasks.json not found — creating it with an empty list.".

Definition invalid_msg : string :=
  "tasks.json contains invalid JSON — resetting to empty list.".

(** The world a handler sees once [readTasks] returned. *)
Definition after_load (w : world) : world :=
  if absent w then recovered w not_found_msg
  else if unparsable w then recovered w invalid_msg
  else w.

(** The world after a successful [writeTasks]. *)
Definition saved (w : world) (tasks : list Task) : world :=
  mkWorld (Holds (JSON_stringify tasks)) (stderr w).

(** What [add_task] answers for the task it created. *)
Definition added (t : Task) : tool_result :=
  content
    ("Task added successfully!" ++ String LF (String LF
     ("  ID:    " ++ Number_toString (id t) ++ String LF
     ("  Title: " ++ title t ++ String LF
     ("  Date:  " ++ createdAt t))))).

(** The task [add_task] creates on top of [tasks]. *)
Definition new_task (tasks : list Task) (now input_title : string) : Task :=
  mkTask (getNextId tasks) input_title false now.

(** Calls of [add_task] in a row; an input is the time of the call and the
    title. *)
Fixpoint add_tasks (inputs : list (string * string)) : M (list tool_result) :=
  match inputs with
  | [] => ret []
  | (now, input_title) :: rest =>
      r <- add_task now input_title ;;
      rs <- add_tasks rest ;;
      ret (r :: rs)
  end.

(** The tasks a row of [add_task] calls creates on top of [tasks]. *)
Fixpoint new_tasks (tasks : list Task) (inputs : list (string * string)) : list Task :=
  match inputs with
  | [] => []
  | (now, input_title) :: rest =>
      let t := new_task tasks now input_title in
      t :: new_tasks (tasks ++ [t]) rest
  end.

(** The four operations of the server. *)
Inductive operation :=
| Add (now input_title : string)
| List
| Complete (input_id : Z)
| Snapshot.

(** The world an operation leaves ([None] when it threw or left the
    model). *)
Definition world_after {A} (m : M A) (w : world) : option world :=
  match m w with
  | Some (Returns _, w') => Some w'
  | _ => None
  end.

Definition perform (op : operation) (w : world) : option world :=
  match op with
  | Add now input_title => world_after (add_task now input_title) w
  | List => world_after list_tasks w
  | Complete input_id => world_after (complete_task input_id) w
  | Snapshot => world_after task_list w
  end.


(** Operations one after the other. *)
Fixpoint perform_all (ops : list operation) (w : world) : option world :=
  match ops with
  | [] => Some w
  | op :: ops' =>
      match perform op w with
      | Some w' => perform_all ops' w'
      | None => None
      end
  end.

(** The try block of [readTasks]. *)
Definition read_and_parse : M JSON.json :=
  data <- fs_readFile ;;
  JSON_parse data.





Definition no_tasks_msg : string := "No tasks yet. Use add_task to create one!".

(** *** Sample stores *)

Definition milk : Task := mkTask 1 "Buy milk" false "2024-05-01T09:30:00.000Z".
Definition report : Task := mkTask 2 "Send report" true "2024-05-02T10:00:00.000Z".
Definition empty_disk : world := mkWorld Absent [].
Definition garbled_disk : world := mkWorld (Holds "{ not json") [].
Definition sample_disk : world := mkWorld (Holds (JSON_stringify [milk; report])) [].
Definition locked_disk : world := mkWorld (Failing EACCES) [].


(** *** The earlier server

    The tools and the resource of the first version of the file: the same
    handlers, over the earlier [readTasks]. *)

Module OriginalServer.

Definition add_task (now : string) (input_title : string) : M tool_result :=
  loaded <- Original.readTasks ;;
  tasks <- typed (as_tasks loaded) ;;
  let newTask := mkTask (getNextId tasks) input_title false now in
  let tasks := (tasks ++ [newTask])%list in
  writeTasks tasks ;;
  ret (content
         ("Task added successfully!" ++ String LF (String LF
          ("  ID:    " ++ Number_toString (id newTask) ++ String LF
          ("  Title: " ++ title newTask ++ String LF
          ("  Date:  " ++ createdAt newTask)))))).

Definition list_tasks : M tool_result :=
  loaded <- Original.readTasks ;;
  tasks <- typed (as_tasks loaded) ;;
  if Nat.eqb (List.length tasks) 0 then
    ret (content "No tasks yet. Use add_task to create one!")
  else
    let formatted := String.concat (String LF "") (map format_task tasks) in
    ret (content
           ("Tasks (" ++ Number_toString (Z.of_nat (List.length tasks)) ++ "):"
            ++ String LF (String LF formatted))).

Definition complete_task (input_id : Z) : M tool_result :=
  loaded <- Original.readTasks ;;
  tasks <- typed (as_tasks loaded) ;;
  match find (fun t => Z.eqb (id t) input_id) tasks with
  | None =>
      ret (mkResult true
             ("Error: No task found with ID " ++ Number_toString input_id ++ "."))
  | Some (ref, task) =>
      if completed task then
        ret (content
               ("Task " ++ Number_toString input_id ++ " (" ++ quote_plain (title task)
                ++ ") is already marked as completed."))
      else
        let tasks := set_completed ref tasks in
        writeTasks tasks ;;
        ret (content
               ("Task " ++ Number_toString input_id ++ " (" ++ quote_plain (title task)
                ++ ") marked as completed!"))
  end.

Definition task_list : M resource_result :=
  loaded <- Original.readTasks ;;
  tasks <- typed (as_tasks loaded) ;;
  ret (mkResource "tasks://list" "application/json" (JSON_stringify tasks)).

End OriginalServer.

(** *** More notions for the properties *)

(** The ids of a collection are positive and pairwise distinct. *)
Definition well_formed (tasks : list Task) : Prop :=
  NoDup (map id tasks) /\ Forall (fun t => (0 < id t)%Z) tasks.

Definition is_add (op : operation) : bool :=
  match op with
  | Add _ _ => true
  | _ => false
  end.

(** How many of the operations are [add_task]. *)
Definition count_adds (ops : list operation) : nat :=
  List.length (filter is_add ops).

(** The result of a computation that returned. *)
Definition returned {A} (m : M A) (w : world) : option A :=
  match m w with
  | Some (Returns a, _) => Some a
  | _ => None
  end.

(** The ids of [tasks] are integers that doubles count exactly, and stay
    so when [n] more are handed out: none is below -2^53, and none is
    within [n] of 2^53. *)
Definition room (n : nat) (tasks : list Task) : Prop :=
  (Z.of_nat n <= MAX_SAFE_INTEGER + 1)%Z
  /\ Forall (fun t => (- MAX_SAFE_INTEGER - 1 <= id t
                       /\ id t + Z.of_nat n <= MAX_SAFE_INTEGER + 1)%Z) tasks.

(** A store whose one task has the id 2^53, the first integer after which
    doubles skip one. *)
Definition top : Task :=
  mkTask (MAX_SAFE_INTEGER + 1) "Buy milk" false "2024-05-01T09:30:00.000Z".
Definition top_disk : world := mkWorld (Holds (JSON_stringify [top])) [].

(** A file that holds valid JSON which is no array. *)
Definition null_disk : world := mkWorld (Holds "null") [].


(** The collection an operation leaves, from the one it loaded. *)
Definition effect (op : operation) (tasks : list Task) : list Task :=
  match op with
  | Add now input_title => (tasks ++ [new_task tasks now input_title])%list
  | Complete input_id =>
      match find (fun t => Z.eqb (id t) input_id) tasks with
      | Some (ref, task) =>
          if completed task then tasks else set_completed ref tasks
      | None => tasks
      end
  | _ => tasks
  end.

Definition effects (ops : list operation) (tasks : list Task) : list Task :=
  fold_left (fun ts op => effect op ts) ops tasks.

(** *** The JSON values and texts of task records *)

Definition number_of_Z (z : Z) : JSON.number :=
  match Z.to_int z with
  | Decimal.Pos d => JSON.mkNumber false d Nil None
  | Decimal.Neg d => JSON.mkNumber true d Nil None
  end.

Definition json_of_task (t : Task) : JSON.json :=
  JSON.JObject
    [ ("id", JSON.JNumber (number_of_Z (id t)));
      ("title", JSON.JString (title t));
      ("completed", JSON.JBool (completed t));
      ("createdAt", JSON.JString (createdAt t)) ].

(** The text of a record after its opening brace, nested to the right. *)
Definition task_members (t : Task) (rest : string) : string :=
  String LF ("    " ++ quote "id" ++ String ":" (String " "
    (Number_toString (id t) ++ String ","
  (String LF ("    " ++ quote "title" ++ String ":" (String " "
    (quote (title t) ++ String ","
  (String LF ("    " ++ quote "completed" ++ String ":" (String " "
    (stringify_bool (completed t) ++ String ","
  (String LF ("    " ++ quote "createdAt" ++ String ":" (String " "
    (quote (createdAt t) ++ String LF ("  }" ++ rest)))))))))))))))).

(** The text of an array after its opening bracket, nested to the right. *)
Fixpoint elements_text (t : Task) (ts : list Task) (rest : string) : string :=
  String LF ("  " ++ stringify_task t ++
    match ts with
    | [] => String LF (String "]" rest)
    | t' :: ts' => String "," (elements_text t' ts' rest)
    end).

(** * Properties *)

(** ** Text *)

Import JSON.

Lemma append_assoc (a b c : string) : (a ++ b) ++ c = a ++ (b ++ c).
Proof. induction a as [|x a IH]; simpl; [reflexivity | now rewrite IH]. Qed.

Lemma length_append (a b : string) :
  String.length (a ++ b) = String.length a + String.length b.
Proof. induction a as [|x a IH]; simpl; [reflexivity | now rewrite IH]. Qed.

Lemma parse_chars_quote_char (c : ascii) (r : string) :
  parse_chars (quote_char c ++ r) = prepend (String c "") (parse_chars r).
Proof.
  destruct c as [[] [] [] [] [] [] [] []]; reflexivity.
Qed.

Lemma parse_chars_quote_chars (s rest : string) :
  parse_chars (quote_chars s ++ String dquote rest) = Some (s, rest).
Proof.
  induction s as [|c s IH]; simpl.
  - reflexivity.
  - rewrite append_assoc, parse_chars_quote_char, IH. reflexivity.
Qed.

(** ** Numbers *)

Lemma scan_digits_string_of_uint (d : uint) (rest : string) :
  scan_digits (NilEmpty.string_of_uint d ++ String "," rest) = (d, String "," rest).
Proof. induction d; simpl; try rewrite IHd; reflexivity. Qed.

Lemma to_uint_digits_ok (p : positive) : int_digits_ok (Pos.to_uint p) = true.
Proof.
  pose proof (DecimalPos.Unsigned.to_uint_nonnil p) as Hnil.
  pose proof (DecimalPos.Unsigned.to_of (Pos.to_uint p)) as Hn.
  rewrite DecimalPos.Unsigned.of_to in Hn. simpl in Hn.
  destruct (Pos.to_uint p) as [|u|u|u|u|u|u|u|u|u|u]; try reflexivity.
  - now elim Hnil.
  - rewrite unorm_D0 in Hn.
    destruct u; try reflexivity; exfalso.
    all: match type of Hn with D0 ?v = _ =>
           assert (Hle : nb_digits (unorm v) <= nb_digits v)
             by (apply nb_digits_unorm; discriminate)
         end.
    all: rewrite <- Hn in Hle; simpl in Hle; lia.
Qed.

Lemma integer_value_number_of_Z (z : Z) : integer_value (number_of_Z z) = Some z.
Proof.
  unfold number_of_Z, integer_value.
  pose proof (DecimalZ.of_to z) as H. unfold Z.of_int in H.
  destruct (Z.to_int z); simpl; rewrite <- H; reflexivity.
Qed.

(** The text of a number starts with a digit or a minus sign. *)
Lemma string_of_uint_head (d : uint) (rest : string) :
  int_digits_ok d = true ->
  exists c r, NilEmpty.string_of_uint d ++ rest = String c r
              /\ is_digit c = true /\ Ascii.eqb c "-" = false.
Proof.
  destruct d; simpl; intros H; try discriminate; eauto 6.
Qed.

Lemma parse_unsigned (neg : bool) (d : uint) (rest : string) :
  int_digits_ok d = true ->
  (let (i, s2) := scan_digits (NilEmpty.string_of_uint d ++ String "," rest) in
   if int_digits_ok i then
     match parse_fraction s2 with
     | Some (f, s3) =>
         match parse_exponent s3 with
         | Some (e, s4) => Some (mkNumber neg i f e, s4)
         | None => None
         end
     | None => None
     end
   else None) = Some (mkNumber neg d Nil None, String "," rest).
Proof.
  intros Hok. rewrite scan_digits_string_of_uint, Hok. reflexivity.
Qed.

Lemma Number_toString_cases (z : Z) :
  exists neg d,
    Number_toString z = (if neg : bool then "-" else "") ++ NilEmpty.string_of_uint d
    /\ int_digits_ok d = true
    /\ number_of_Z z = mkNumber neg d Nil None.
Proof.
  unfold Number_toString, number_of_Z.
  destruct z as [|p|p]; simpl.
  - exists false, (D0 Nil). auto.
  - exists false, (Pos.to_uint p). pose proof (to_uint_digits_ok p) as H.
    repeat split; auto. unfold NilZero.string_of_uint.
    destruct (Pos.to_uint p); [discriminate | reflexivity ..].
  - exists true, (Pos.to_uint p). pose proof (to_uint_digits_ok p) as H.
    repeat split; auto. unfold NilZero.string_of_uint.
    destruct (Pos.to_uint p); [discriminate | reflexivity ..].
Qed.

Lemma parse_number_toString (z : Z) (rest : string) :
  parse_number (Number_toString z ++ String "," rest)
  = Some (number_of_Z z, String "," rest).
Proof.
  destruct (Number_toString_cases z) as (neg & d & -> & Hok & ->).
  unfold parse_number. rewrite append_assoc.
  destruct neg; simpl.
  - apply parse_unsigned, Hok.
  - destruct (string_of_uint_head d (String "," rest) Hok) as (c & r & E & _ & Hc).
    unfold parse_sign. rewrite E, Hc, <- E. apply parse_unsigned, Hok.
Qed.

Lemma Number_toString_head (z : Z) (rest : string) :
  exists c r, Number_toString z ++ rest = String c r
              /\ (is_digit c || Ascii.eqb c "-") = true.
Proof.
  destruct (Number_toString_cases z) as (neg & d & -> & Hok & _).
  rewrite append_assoc. destruct neg; simpl.
  - eauto.
  - destruct (string_of_uint_head d rest Hok) as (c & r & E & Hd & _).
    exists c, r. rewrite Hd. auto.
Qed.

(** ** Records and arrays *)

Lemma as_task_json_of_task (t : Task) : as_task (json_of_task t) = Some t.
Proof.
  destruct t as [i ti c d]. unfold as_task, json_of_task. simpl.
  rewrite integer_value_number_of_Z. reflexivity.
Qed.

Lemma parse_value_number (n : nat) (z : Z) (rest : string) :
  parse_value (S n) (String " " (Number_toString z ++ String "," rest))
  = Some (JNumber (number_of_Z z), String "," rest).
Proof.
  destruct (Number_toString_head z (String "," rest)) as (c & r & E & Hc).
  pose proof (parse_number_toString z rest) as Hp.
  rewrite E in *.
  assert (Hws : is_ws c = false).
  { destruct c as [[] [] [] [] [] [] [] []]; try reflexivity; discriminate. }
  simpl. rewrite Hws, Hc, Hp. reflexivity.
Qed.

Lemma parse_value_string (n : nat) (s rest : string) :
  parse_value (S n) (String " " (quote s ++ rest)) = Some (JString s, rest).
Proof.
  unfold quote. simpl. rewrite append_assoc. simpl.
  rewrite parse_chars_quote_chars. reflexivity.
Qed.

Lemma parse_value_bool (n : nat) (b : bool) (rest : string) :
  parse_value (S n) (String " " (stringify_bool b ++ rest)) = Some (JBool b, rest).
Proof. destruct b; reflexivity. Qed.

(** One member of a record, followed by another one. *)
Lemma parse_members_cons (n : nat) (k value : string) (v : json)
      (rest : string) (ms : list (string * json)) (rest' : string) :
  parse_value n value = Some (v, String "," rest) ->
  parse_members n rest = Some (ms, rest') ->
  parse_members (S n) (String LF ("    " ++ quote k ++ String ":" value))
  = Some ((k, v) :: ms, rest').
Proof.
  intros Hv Hms. unfold quote. simpl. rewrite append_assoc. simpl.
  rewrite parse_chars_quote_chars. simpl. rewrite Hv. simpl. rewrite Hms.
  reflexivity.
Qed.

(** The last member of a record and its closing brace. *)
Lemma parse_members_last (n : nat) (k value : string) (v : json) (rest : string) :
  parse_value n value = Some (v, String LF ("  }" ++ rest)) ->
  parse_members (S n) (String LF ("    " ++ quote k ++ String ":" value))
  = Some ([(k, v)], rest).
Proof.
  intros Hv. unfold quote. simpl. rewrite append_assoc. simpl.
  rewrite parse_chars_quote_chars. simpl. rewrite Hv. reflexivity.
Qed.


Lemma stringify_task_members (t : Task) (rest : string) :
  stringify_task t ++ rest = String "{" (task_members t rest).
Proof.
  unfold stringify_task, task_members, property. simpl String.concat.
  repeat (rewrite !append_assoc; simpl append). reflexivity.
Qed.

Lemma parse_members_task (n : nat) (t : Task) (rest : string) :
  parse_members (5 + n) (task_members t rest)
  = Some ([ ("id", JNumber (number_of_Z (id t)));
            ("title", JString (title t));
            ("completed", JBool (completed t));
            ("createdAt", JString (createdAt t)) ], rest).
Proof.
  unfold task_members.
  eapply parse_members_cons; [apply parse_value_number|].
  eapply parse_members_cons; [apply parse_value_string|].
  eapply parse_members_cons; [apply parse_value_bool|].
  apply parse_members_last, parse_value_string.
Qed.

Lemma parse_value_task (n : nat) (t : Task) (rest : string) :
  parse_value (6 + n) (stringify_task t ++ rest) = Some (json_of_task t, rest).
Proof.
  rewrite stringify_task_members. 
  pose proof (parse_members_task n t rest) as H.
  change (6 + n) with (S (5 + n)).
  unfold task_members in *.
  remember (5 + n) as m. 
  simpl. simpl in H. rewrite H. reflexivity.
Qed.

Lemma append_nil_r (s : string) : s ++ "" = s.
Proof. induction s as [|c s IH]; simpl; [reflexivity | now rewrite IH]. Qed.

Lemma parse_value_skip (n : nat) (c : ascii) (s : string) :
  is_ws c = true -> parse_value n (String c s) = parse_value n s.
Proof. intros H. destruct n; simpl; [reflexivity | now rewrite H]. Qed.

Lemma concat_cons (sep x y : string) (l : list string) :
  String.concat sep (x :: y :: l) = x ++ sep ++ String.concat sep (y :: l).
Proof. reflexivity. Qed.

Lemma concat_elements (t : Task) (ts : list Task) (rest : string) :
  String LF
    (String.concat (String "," (String LF ""))
       (map (fun t => "  " ++ stringify_task t) (t :: ts))
     ++ String LF (String "]" rest))
  = elements_text t ts rest.
Proof.
  revert t. induction ts as [|t' ts IH]; intros t.
  - cbn [map String.concat elements_text]. rewrite append_assoc. reflexivity.
  - cbn [elements_text]. rewrite <- IH.
    change (map (fun t0 => "  " ++ stringify_task t0) (t :: t' :: ts))
      with (("  " ++ stringify_task t)
              :: map (fun t0 => "  " ++ stringify_task t0) (t' :: ts)).
    cbn [map]. rewrite concat_cons. rewrite !append_assoc. reflexivity.
Qed.

Lemma JSON_stringify_elements (t : Task) (ts : list Task) (rest : string) :
  JSON_stringify (t :: ts) ++ rest = String "[" (elements_text t ts rest).
Proof.
  rewrite <- concat_elements. unfold JSON_stringify.
  cbn [append]. rewrite !append_assoc. reflexivity.
Qed.

Lemma parse_elements_cons (n : nat) (s : string) (v : json) (rest : string)
      (vs : list json) (rest' : string) :
  parse_value n s = Some (v, String "," rest) ->
  parse_elements n rest = Some (vs, rest') ->
  parse_elements (S n) s = Some (v :: vs, rest').
Proof. intros Hv Hvs. simpl. rewrite Hv. simpl. rewrite Hvs. reflexivity. Qed.

Lemma parse_elements_last (n : nat) (s : string) (v : json) (rest : string) :
  parse_value n s = Some (v, String LF (String "]" rest)) ->
  parse_elements (S n) s = Some ([v], rest).
Proof. intros Hv. simpl. rewrite Hv. reflexivity. Qed.

Lemma parse_value_array (n : nat) (r r' : string) (vs : list json) (rest : string) :
  skip_ws r = String "{" r' ->
  parse_elements n r = Some (vs, rest) ->
  parse_value (S n) (String "[" r) = Some (JArray vs, rest).
Proof. intros Hr Hvs. simpl. rewrite Hr, Hvs. reflexivity. Qed.

Lemma parse_value_element (n : nat) (t : Task) (rest : string) :
  parse_value (6 + n) (String LF ("  " ++ stringify_task t ++ rest))
  = Some (json_of_task t, rest).
Proof.
  cbn [append]. rewrite !parse_value_skip by reflexivity. apply parse_value_task.
Qed.

Lemma parse_elements_text (ts : list Task) :
  forall (t : Task) (n : nat) (rest : string),
    parse_elements (7 + List.length ts + n) (elements_text t ts rest)
    = Some (map json_of_task (t :: ts), rest).
Proof.
  induction ts as [|t' ts IH]; intros t n rest.
  - cbn [elements_text List.length]. change (7 + 0 + n) with (S (6 + n)).
    apply parse_elements_last, parse_value_element.
  - cbn [elements_text List.length].
    change (7 + S (List.length ts) + n) with (S (7 + List.length ts + n)).
    eapply parse_elements_cons; [|apply IH].
    replace (7 + List.length ts + n) with (6 + (1 + List.length ts + n)) by lia.
    apply parse_value_element.
Qed.

Lemma elements_text_length (ts : list Task) :
  forall t rest, List.length ts + 4 <= String.length (elements_text t ts rest).
Proof.
  induction ts as [|t' ts IH]; intros t rest; cbn [elements_text].
  - cbn [String.length append]. rewrite length_append. cbn [String.length List.length]. lia.
  - specialize (IH t' rest). cbn [String.length append]. rewrite length_append.
    cbn [String.length List.length]. lia.
Qed.

Lemma skip_ws_elements_text (t : Task) (ts : list Task) (rest : string) :
  exists r, skip_ws (elements_text t ts rest) = String "{" r.
Proof.
  destruct ts; cbn [elements_text append]; rewrite stringify_task_members;
    eexists; reflexivity.
Qed.

Theorem parse_stringify (tasks : list Task) :
  parse (JSON_stringify tasks) = Some (JArray (map json_of_task tasks)).
Proof.
  destruct tasks as [|t ts]; [reflexivity|].
  unfold parse.
  rewrite <- (append_nil_r (JSON_stringify (t :: ts))), JSON_stringify_elements.
  pose proof (elements_text_length ts t "") as Hlen.
  destruct (skip_ws_elements_text t ts "") as [r Hr].
  cbn [String.length].
  replace (2 * S (String.length (elements_text t ts "")) + 2)
    with (S (7 + List.length ts
             + (2 * String.length (elements_text t ts "") - List.length ts - 4)))
    by lia.
  rewrite (parse_value_array _ _ _ _ _ Hr (parse_elements_text ts t _ "")).
  reflexivity.
Qed.

Lemma as_task_list_map (tasks : list Task) :
  as_task_list (map json_of_task tasks) = Some tasks.
Proof.
  induction tasks as [|t ts IH]; [reflexivity|].
  cbn [map as_task_list]. rewrite as_task_json_of_task, IH. reflexivity.
Qed.

Theorem roundtrip (tasks : list Task) :
  exists v, parse (JSON_stringify tasks) = Some v /\ as_tasks v = Some tasks.
Proof.
  exists (JArray (map json_of_task tasks)). split.
  - apply parse_stringify.
  - apply as_task_list_map.
Qed.

(** ** The fuel of the parser

    No parser returns more text than it was given, so the calls nest no
    deeper than twice the length of the text: above that, the fuel does not
    matter. *)

Lemma skip_ws_length (s : string) :
  String.length (skip_ws s) <= String.length s.
Proof.
  induction s as [|c s IH]; cbn [skip_ws String.length]; [lia|].
  destruct (is_ws c); cbn [String.length]; lia.
Qed.

Lemma skip_ws_head (s : string) (c : ascii) (r : string) :
  skip_ws s = String c r -> S (String.length r) <= String.length s.
Proof.
  intros E. pose proof (skip_ws_length s) as H. rewrite E in H. exact H.
Qed.

Lemma scan_digits_length (s : string) :
  String.length (snd (scan_digits s)) <= String.length s.
Proof.
  induction s as [|c s IH]; cbn [scan_digits]; [cbn; lia|].
  destruct (digit_of_char c); [|cbn; lia].
  destruct (scan_digits s) as [d r]. cbn [snd String.length] in *. lia.
Qed.

Lemma parse_sign_length (s : string) :
  String.length (snd (parse_sign s)) <= String.length s.
Proof.
  destruct s as [|c s]; cbn [parse_sign]; [cbn; lia|].
  destruct (Ascii.eqb c "-"); cbn [snd String.length]; lia.
Qed.

Lemma parse_fraction_length (s : string) (f : uint) (r : string) :
  parse_fraction s = Some (f, r) -> String.length r <= String.length s.
Proof.
  destruct s as [|c s]; cbn [parse_fraction]; [intros [= _ <-]; lia|].
  destruct (Ascii.eqb c ".").
  - pose proof (scan_digits_length s) as H.
    destruct (scan_digits s) as [d r']. cbn [snd] in H.
    destruct d; intros [= _ <-]; cbn [String.length]; lia.
  - intros [= _ <-]. lia.
Qed.

Lemma parse_exp_digits_length (neg : bool) (s : string) e (r : string) :
  parse_exp_digits neg s = Some (e, r) -> String.length r <= String.length s.
Proof.
  unfold parse_exp_digits. pose proof (scan_digits_length s) as H.
  destruct (scan_digits s) as [d r']. cbn [snd] in H.
  destruct d; intros [= _ <-]; lia.
Qed.

Lemma parse_exponent_length (s : string) e (r : string) :
  parse_exponent s = Some (e, r) -> String.length r <= String.length s.
Proof.
  destruct s as [|c s]; cbn [parse_exponent]; [intros [= _ <-]; lia|].
  destruct (Ascii.eqb c "e" || Ascii.eqb c "E"); [|intros [= _ <-]; lia].
  destruct s as [|c' s']; [discriminate|].
  destruct (Ascii.eqb c' "+").
  - intros H%parse_exp_digits_length. cbn [String.length]. lia.
  - pose proof (parse_sign_length (String c' s')) as Hs.
    destruct (parse_sign (String c' s')) as [neg r']. cbn [snd] in Hs.
    intros H%parse_exp_digits_length. cbn [String.length] in *. lia.
Qed.

Lemma parse_number_length (s : string) (x : number) (r : string) :
  parse_number s = Some (x, r) -> String.length r <= String.length s.
Proof.
  unfold parse_number.
  pose proof (parse_sign_length s) as H1.
  destruct (parse_sign s) as [neg s1]. cbn [snd] in H1.
  pose proof (scan_digits_length s1) as H2.
  destruct (scan_digits s1) as [i s2]. cbn [snd] in H2.
  destruct (int_digits_ok i); [|discriminate].
  destruct (parse_fraction s2) as [[f s3]|] eqn:E3; [|discriminate].
  destruct (parse_exponent s3) as [[e s4]|] eqn:E4; [|discriminate].
  intros [= _ <-].
  apply parse_fraction_length in E3. apply parse_exponent_length in E4. lia.
Qed.

Lemma strip_prefix_length (lit s r : string) :
  strip_prefix lit s = Some r -> String.length r <= String.length s.
Proof.
  revert s. induction lit as [|a lit IH]; intros s; cbn [strip_prefix].
  - intros [= <-]. lia.
  - destruct s as [|b s]; [discriminate|].
    destruct (Ascii.eqb a b); [|discriminate].
    intros H%IH. cbn [String.length]. lia.
Qed.

Lemma expect_length (lit : string) (v : json) (s : string) (x : json) (r : string) :
  expect lit v s = Some (x, r) -> String.length r <= String.length s.
Proof.
  unfold expect. destruct (strip_prefix lit s) as [r'|] eqn:E; [|discriminate].
  intros [= _ <-]. eapply strip_prefix_length, E.
Qed.

Lemma prepend_length (p : string) (x : option (string * string)) (t r : string)
      (bound : nat) :
  (forall t' r', x = Some (t', r') -> String.length r' <= bound) ->
  prepend p x = Some (t, r) -> String.length r <= bound.
Proof.
  intros H. destruct x as [[t' r']|]; cbn [prepend]; [|discriminate].
  intros [= _ <-]. now apply (H t').
Qed.

Lemma parse_chars_length (s : string) :
  forall t r, parse_chars s = Some (t, r) -> String.length r <= String.length s.
Proof.
  remember (String.length s) as len eqn:Hlen.
  assert (Hle : String.length s <= len) by lia. clear Hlen.
  revert s Hle. induction len as [|len IH]; intros s Hle t r.
  - destruct s; [discriminate | cbn in Hle; lia].
  - destruct s as [|c s]; [discriminate|]. cbn [String.length] in Hle.
    assert (Hrec : forall s' t' r',
               String.length s' <= String.length s ->
               parse_chars s' = Some (t', r') -> String.length r' <= S len).
    { intros s' t' r' Hs' H'. apply IH in H'; lia. }
    cbn [parse_chars].
    destruct (Ascii.eqb c dquote); [intros [= _ <-]; lia|].
    destruct (Ascii.eqb c backslash).
    + destruct s as [|e r1]; [discriminate|]. cbn [String.length] in *.
      destruct (Ascii.eqb e "u").
      * destruct r1 as [|h1 [|h2 [|h3 [|h4 r2]]]]; try discriminate.
        cbn [String.length] in *.
        destruct (hex4 h1 h2 h3 h4) as [cu|]; [|discriminate].
        destruct (if is_high_surrogate cu then low_escape r2 else None) as [lo|].
        -- destruct r2 as [|a1 [|a2 [|a3 [|a4 [|a5 [|a6 r3]]]]]];
             try (apply prepend_length; intros t' r'; apply Hrec;
                  cbn [String.length]; lia).
        -- apply prepend_length. intros t' r'. apply Hrec. lia.
      * destruct (unescape e); [|discriminate].
        apply prepend_length. intros t' r'. apply Hrec. lia.
    + destruct (is_control c); [discriminate|].
      apply prepend_length. intros t' r'. apply Hrec. lia.
Qed.

Lemma wrap_length {A B} (f : A -> B) (x : option (A * string)) (b : B) (r : string)
      (bound : nat) :
  (forall a r', x = Some (a, r') -> String.length r' <= bound) ->
  wrap f x = Some (b, r) -> String.length r <= bound.
Proof.
  intros H. destruct x as [[a r']|]; cbn [wrap]; [|discriminate].
  intros [= _ <-]. now apply (H a).
Qed.

(** What a parser leaves is no longer than what it was given. *)
Lemma parse_consumes (n : nat) :
  (forall s v r, parse_value n s = Some (v, r) -> String.length r <= String.length s)
  /\ (forall s vs r, parse_elements n s = Some (vs, r) -> String.length r <= String.length s)
  /\ (forall s ms r, parse_members n s = Some (ms, r) -> String.length r <= String.length s).
Proof.
  induction n as [|n (IHv & IHe & IHm)]; [repeat split; discriminate|].
  repeat split.
  - intros s v r. cbn [parse_value].
    destruct (skip_ws s) as [|c s1] eqn:E; [discriminate|].
    pose proof (skip_ws_head _ _ _ E) as Hs. rewrite <- E.
    pose proof (skip_ws_length s) as Hws.
    destruct (is_digit c || Ascii.eqb c "-").
    { intros H. eapply wrap_length in H; [|intros a r'; apply parse_number_length]. lia. }
    destruct (Ascii.eqb c "n"); [intros H%expect_length; lia|].
    destruct (Ascii.eqb c "t"); [intros H%expect_length; lia|].
    destruct (Ascii.eqb c "f"); [intros H%expect_length; lia|].
    destruct (Ascii.eqb c dquote).
    { intros H. eapply wrap_length in H; [|intros a r'; apply parse_chars_length]. lia. }
    destruct (Ascii.eqb c "[").
    { destruct (skip_ws s1) as [|c' r1] eqn:E1; [discriminate|].
      pose proof (skip_ws_head _ _ _ E1).
      destruct (Ascii.eqb c' "]"); [intros [= _ <-]; lia|].
      intros H'. eapply wrap_length in H'; [|intros a r'; apply IHe]. lia. }
    destruct (Ascii.eqb c "{"); [|discriminate].
    destruct (skip_ws s1) as [|c' r1] eqn:E1; [discriminate|].
    pose proof (skip_ws_head _ _ _ E1).
    destruct (Ascii.eqb c' "}"); [intros [= _ <-]; lia|].
    intros H'. eapply wrap_length in H'; [|intros a r'; apply IHm]. lia.
  - intros s vs r. cbn [parse_elements].
    destruct (parse_value n s) as [[v rest]|] eqn:Ev; [|discriminate].
    apply IHv in Ev.
    destruct (skip_ws rest) as [|c rest'] eqn:E; [discriminate|].
    pose proof (skip_ws_head _ _ _ E).
    destruct (Ascii.eqb c ",").
    { intros H'. eapply wrap_length in H'; [|intros a r'; apply IHe]. lia. }
    destruct (Ascii.eqb c "]"); [intros [= _ <-]; lia | discriminate].
  - intros s ms r. cbn [parse_members].
    destruct (skip_ws s) as [|c s1] eqn:E; [discriminate|].
    pose proof (skip_ws_head _ _ _ E).
    destruct (Ascii.eqb c dquote); [|discriminate].
    destruct (parse_chars s1) as [[k rest]|] eqn:Ek; [|discriminate].
    apply parse_chars_length in Ek.
    destruct (skip_ws rest) as [|c1 rest1] eqn:E1; [discriminate|].
    pose proof (skip_ws_head _ _ _ E1).
    destruct (Ascii.eqb c1 ":"); [|discriminate].
    destruct (parse_value n rest1) as [[v rest2]|] eqn:Ev; [|discriminate].
    apply IHv in Ev.
    destruct (skip_ws rest2) as [|c2 rest3] eqn:E2; [discriminate|].
    pose proof (skip_ws_head _ _ _ E2).
    destruct (Ascii.eqb c2 ",").
    { intros H'. eapply wrap_length in H'; [|intros a r'; apply IHm]. lia. }
    destruct (Ascii.eqb c2 "}"); [intros [= _ <-]; lia | discriminate].
Qed.

(** Two amounts of fuel above the bound give the same result. *)
Lemma parse_fuel_irrelevant (n : nat) :
  (forall m s, 2 * String.length s + 1 <= n -> 2 * String.length s + 1 <= m ->
               parse_value n s = parse_value m s)
  /\ (forall m s, 2 * String.length s + 2 <= n -> 2 * String.length s + 2 <= m ->
                  parse_elements n s = parse_elements m s)
  /\ (forall m s, 2 * String.length s + 2 <= n -> 2 * String.length s + 2 <= m ->
                  parse_members n s = parse_members m s).
Proof.
  induction n as [|n (IHv & IHe & IHm)]; [repeat split; intros; lia|].
  repeat split; intros m s Hn Hm; (destruct m as [|m]; [lia|]).
  - cbn [parse_value].
    destruct (skip_ws s) as [|c s1] eqn:E; [reflexivity|].
    pose proof (skip_ws_head _ _ _ E).
    rewrite (IHe m s1), (IHm m s1) by lia. reflexivity.
  - cbn [parse_elements]. rewrite (IHv m s) by lia.
    destruct (parse_value m s) as [[v rest]|] eqn:Ev; [|reflexivity].
    apply (proj1 (parse_consumes m)) in Ev.
    destruct (skip_ws rest) as [|c rest'] eqn:E; [reflexivity|].
    pose proof (skip_ws_head _ _ _ E).
    rewrite (IHe m rest') by lia. reflexivity.
  - cbn [parse_members].
    destruct (skip_ws s) as [|c s1] eqn:E; [reflexivity|].
    pose proof (skip_ws_head _ _ _ E).
    destruct (Ascii.eqb c dquote); [|reflexivity].
    destruct (parse_chars s1) as [[k rest]|] eqn:Ek; [|reflexivity].
    apply parse_chars_length in Ek.
    destruct (skip_ws rest) as [|c1 rest1] eqn:E1; [reflexivity|].
    pose proof (skip_ws_head _ _ _ E1).
    destruct (Ascii.eqb c1 ":"); [|reflexivity].
    rewrite (IHv m rest1) by lia.
    destruct (parse_value m rest1) as [[v rest2]|] eqn:Ev; [|reflexivity].
    apply (proj1 (parse_consumes m)) in Ev.
    destruct (skip_ws rest2) as [|c2 rest3] eqn:E2; [reflexivity|].
    pose proof (skip_ws_head _ _ _ E2).
    rewrite (IHm m rest3) by lia. reflexivity.
Qed.

(** [parse] gives its parser fuel enough: more would change nothing. *)
Theorem parse_fuel (text : string) (n : nat) :
  2 * String.length text + 2 <= n ->
  parse_value n text = parse_value (2 * String.length text + 2) text.
Proof.
  intros H. apply (proj1 (parse_fuel_irrelevant n)); lia.
Qed.

(** ** Lists: [find], [set_completed], [Math.max] *)





Lemma Math_max_upper (xs : list Z) :
  forall x, (x <= Math_max x xs)%Z
            /\ (forall y, In y xs -> (y <= Math_max x xs)%Z)
            /\ In (Math_max x xs) (x :: xs).
Proof.
  unfold Math_max. induction xs as [|a xs IH]; intros x; cbn [fold_left].
  - repeat split; [lia | intros y [] | now left].
  - destruct (IH (Z.max x a)) as (H1 & H2 & H3). repeat split.
    + lia.
    + intros y [<- | Hy]; [lia | now apply H2].
    + destruct H3 as [H3 | H3]; [|now right; right].
      rewrite <- H3. destruct (Z.max_spec x a) as [[_ ->] | [_ ->]];
        [right; left | left]; reflexivity.
Qed.

(** Up to 2^53 in magnitude an integer is a double. *)
Lemma Number_value_exact (z : Z) :
  (Z.abs z <= MAX_SAFE_INTEGER + 1)%Z -> Number_value z = z.
Proof.
  intros H. unfold Number_value.
  destruct (Z.leb_spec (Z.log2 (Z.abs z) - 52) 0) as [_ | Hlow]; [reflexivity|].
  assert (Hpos : (0 < Z.abs z)%Z).
  { destruct (Z.abs z) eqn:E; cbn in Hlow; lia. }
  destruct (Z.log2_spec _ Hpos) as (Hle & _).
  assert (Hpow : (2 ^ 53 <= 2 ^ Z.log2 (Z.abs z))%Z)
    by (apply Z.pow_le_mono_r; lia).
  assert (Hm : Z.abs z = 9007199254740992%Z).
  { unfold MAX_SAFE_INTEGER in H. change (2 ^ 53)%Z with 9007199254740992%Z in Hpow. lia. }
  destruct (Z.abs_spec z) as [[_ E] | [_ E]]; rewrite E in Hm.
  - subst z. reflexivity.
  - assert (z = (- 9007199254740992)%Z) as -> by lia. reflexivity.
Qed.

Lemma room_ids (n : nat) (tasks : list Task) (x : Z) :
  room n tasks -> In x (map id tasks) ->
  (- MAX_SAFE_INTEGER - 1 <= x /\ x + Z.of_nat n <= MAX_SAFE_INTEGER + 1)%Z.
Proof.
  intros (_ & H) Hx. apply List.in_map_iff in Hx as (t & <- & Ht).
  rewrite List.Forall_forall in H. now apply H.
Qed.

(** Below 2^53 the next id is the greatest id plus one. *)
Lemma getNextId_cons (t : Task) (ts : list Task) :
  room 1 (t :: ts) ->
  getNextId (t :: ts) = (Math_max (id t) (map id ts) + 1)%Z.
Proof.
  intros H. unfold getNextId, Number_add. cbn [map].
  destruct (Math_max_upper (map id ts) (id t)) as (_ & _ & Hin).
  apply (room_ids 1 (t :: ts) _ H) in Hin.
  apply Number_value_exact. unfold MAX_SAFE_INTEGER in *. lia.
Qed.

Lemma getNextId_greater (tasks : list Task) (t : Task) :
  room 1 tasks -> In t tasks -> (id t < getNextId tasks)%Z.
Proof.
  intros H Ht. destruct tasks as [|t0 ts]; [destruct Ht|].
  rewrite (getNextId_cons _ _ H).
  destruct (Math_max_upper (map id ts) (id t0)) as (H1 & H2 & _).
  destruct Ht as [<- | Ht]; [lia|].
  apply (in_map id) in Ht. specialize (H2 _ Ht). lia.
Qed.

(** Handing out one id uses up one unit of room. *)
Lemma room_new_task (n : nat) (tasks : list Task) (now input_title : string) :
  room (S n) tasks ->
  room 1 tasks /\ room n (tasks ++ [new_task tasks now input_title]).
Proof.
  intros (Hn & H).
  assert (H1 : room 1 tasks).
  { split; [unfold MAX_SAFE_INTEGER; lia|].
    eapply List.Forall_impl; [|exact H]. cbn beta. intros t. lia. }
  split; [exact H1|]. split; [lia|].
  apply List.Forall_app. split.
  - eapply List.Forall_impl; [|exact H]. cbn beta. intros t. lia.
  - constructor; [|constructor]. cbn [new_task id].
    destruct tasks as [|t ts].
    + change (getNextId []) with 1%Z. unfold MAX_SAFE_INTEGER in *. lia.
    + rewrite (getNextId_cons _ _ H1).
      destruct (Math_max_upper (map id ts) (id t)) as (_ & _ & Hin).
      apply (room_ids _ _ _ (conj Hn H)) in Hin. lia.
Qed.

(** ** The helpers on each state of the file *)

Lemma stored_saved (w : world) (tasks : list Task) :
  stored (saved w tasks) = Some tasks.
Proof.
  unfold stored, saved. cbn [TASKS_FILE].
  rewrite parse_stringify. apply as_task_list_map.
Qed.

Lemma errno_code_not_ENOENT (e : errno) :
  code_is (SystemError (errno_code e)) "ENOENT" = false.
Proof. destruct e; reflexivity. Qed.

Ltac unfold_read :=
  unfold readTasks, try_catch, bind, fs_readFile, JSON_parse.

Ltac unfold_reset :=
  cbn; unfold bind, console_error, writeTasks, fs_writeFile; cbn.

Lemma readTasks_absent (w : world) :
  absent w = true ->
  readTasks w = Some (Returns (JArray []), recovered w not_found_msg).
Proof.
  unfold absent. unfold_read.
  destruct (TASKS_FILE w) as [|data|e] eqn:E; intros H; try discriminate.
  unfold_reset. rewrite E. reflexivity.
Qed.

Lemma readTasks_unparsable (w : world) :
  unparsable w = true ->
  readTasks w = Some (Returns (JArray []), recovered w invalid_msg).
Proof.
  unfold unparsable. unfold_read.
  destruct (TASKS_FILE w) as [|data|e] eqn:E; intros H; try discriminate.
  destruct (parse data); try discriminate.
  unfold_reset. rewrite E. reflexivity.
Qed.

Lemma readTasks_parsed (w : world) (data : string) (v : json) :
  TASKS_FILE w = Holds data ->
  parse data = Some v ->
  readTasks w = Some (Returns v, w).
Proof. intros E P. unfold_read. rewrite E, P. reflexivity. Qed.

Lemma readTasks_failing (w : world) (e : errno) :
  TASKS_FILE w = Failing e ->
  readTasks w = Some (Throws (SystemError (errno_code e)), w).
Proof.
  intros E. unfold_read. rewrite E, errno_code_not_ENOENT. reflexivity.
Qed.

Lemma readTasks_stored (w : world) (tasks : list Task) :
  stored w = Some tasks ->
  exists v, readTasks w = Some (Returns v, w) /\ as_tasks v = Some tasks.
Proof.
  unfold stored. destruct (TASKS_FILE w) as [|data|e] eqn:E; try discriminate.
  destruct (parse data) as [v|] eqn:P; try discriminate.
  intros H. exists v. split; [eapply readTasks_parsed; eassumption | exact H].
Qed.

Lemma stored_collection (w : world) (tasks : list Task) :
  stored w = Some tasks -> collection w = Some tasks.
Proof.
  unfold collection, stored, absent, unparsable.
  destruct (TASKS_FILE w) as [|data|e]; try discriminate.
  destruct (parse data); [trivial | discriminate].
Qed.

Lemma stored_after_load (w : world) (tasks : list Task) :
  stored w = Some tasks -> after_load w = w.
Proof.
  unfold after_load, stored, absent, unparsable.
  destruct (TASKS_FILE w) as [|data|e]; try discriminate.
  destruct (parse data); [reflexivity | discriminate].
Qed.

Lemma stored_holds (w : world) (tasks : list Task) :
  stored w = Some tasks -> exists data, TASKS_FILE w = Holds data.
Proof.
  unfold stored. destruct (TASKS_FILE w) as [|data|e]; try discriminate. eauto.
Qed.

Lemma writeTasks_stored (w : world) (tasks tasks' : list Task) :
  stored w = Some tasks ->
  writeTasks tasks' w = Some (Returns tt, saved w tasks').
Proof.
  intros H. destruct (stored_holds _ _ H) as [data E].
  unfold writeTasks, fs_writeFile, saved. rewrite E. reflexivity.
Qed.

Lemma collection_saved (w : world) (tasks : list Task) :
  collection (saved w tasks) = Some tasks.
Proof. apply stored_collection, stored_saved. Qed.

(** ** The handlers on a collection

    The file is absent, unparsable or holds a collection: [tasks] is what
    the handlers work on. *)

Section OnCollection.

Variable w : world.
Variable tasks : list Task.
Hypothesis loaded : collection w = Some tasks.

Lemma readTasks_collection :
  exists v, readTasks w = Some (Returns v, after_load w)
            /\ as_tasks v = Some tasks.
Proof.
  revert loaded. unfold collection, after_load.
  destruct (absent w) eqn:A; [|destruct (unparsable w) eqn:U]; cbn [orb].
  - intros [= <-]. exists (JArray []). split; [now apply readTasks_absent | reflexivity].
  - intros [= <-]. exists (JArray []). split; [now apply readTasks_unparsable | reflexivity].
  - apply readTasks_stored.
Qed.

Lemma stored_loaded : stored (after_load w) = Some tasks.
Proof.
  revert loaded. unfold collection, after_load.
  destruct (absent w); [|destruct (unparsable w)]; cbn [orb].
  - intros [= <-]. reflexivity.
  - intros [= <-]. reflexivity.
  - trivial.
Qed.


(** Runs a handler up to the point where it holds [tasks]. *)
Ltac load :=
  let v := fresh "v" in
  let R := fresh "R" in
  let V := fresh "V" in
  destruct readTasks_collection as (v & R & V);
  unfold bind, typed; rewrite R, V.

Lemma add_task_collection (now input_title : string) :
  add_task now input_title w
  = Some (Returns (added (new_task tasks now input_title)),
          saved (after_load w) (tasks ++ [new_task tasks now input_title])).
Proof.
  unfold add_task. load. fold (new_task tasks now input_title).
  rewrite (writeTasks_stored _ _ _ stored_loaded). reflexivity.
Qed.

Lemma list_tasks_collection :
  list_tasks w
  = Some (Returns
            (match tasks with
             | [] => content no_tasks_msg
             | _ =>
                 content
                   ("Tasks (" ++ Number_toString (Z.of_nat (List.length tasks)) ++ "):"
                    ++ String LF (String LF
                         (String.concat (String LF "") (map format_task tasks))))
             end),
          after_load w).
Proof. unfold list_tasks. load. destruct tasks; reflexivity. Qed.

Lemma task_list_collection :
  task_list w
  = Some (Returns (mkResource "tasks://list" "application/json" (JSON_stringify tasks)),
          after_load w).
Proof. unfold task_list. load. reflexivity. Qed.

Lemma complete_task_collection (input_id : Z) :
  complete_task input_id w
  = match find (fun t => Z.eqb (id t) input_id) tasks with
    | None =>
        Some (Returns (mkResult true
                ("Error: No task found with ID " ++ Number_toString input_id ++ ".")),
              after_load w)
    | Some (ref, task) =>
        if completed task then
          Some (Returns (content
                  ("Task " ++ Number_toString input_id ++ " ("
                   ++ quote_plain (title task)
                   ++ ") is already marked as completed.")),
                after_load w)
        else
          Some (Returns (content
                  ("Task " ++ Number_toString input_id ++ " ("
                   ++ quote_plain (title task)
                   ++ ") marked as completed!")),
                saved (after_load w) (set_completed ref tasks))
    end.
Proof.
  unfold complete_task. load.
  destruct (find _ tasks) as [[ref task]|]; [|reflexivity].
  destruct (completed task); [reflexivity|].
  rewrite (writeTasks_stored _ _ _ stored_loaded). reflexivity.
Qed.



End OnCollection.



(** * The claims *)

(** C1: when the file is absent or its text does not parse, [readTasks]
    returns the empty array without throwing, and leaves a file that holds
    the text of an empty array: reading and parsing it again gives the empty
    array.  [list_tasks] on such a file answers that there are no tasks. *)
Theorem readTasks_recovers (w : world) :
  absent w = true \/ unparsable w = true ->
  exists w',
    readTasks w = Some (Returns (JArray []), w')
    /\ TASKS_FILE w' = Holds "[]"
    /\ read_and_parse w' = Some (Returns (JArray []), w')
    /\ list_tasks w = Some (Returns (content no_tasks_msg), w').
Proof.
  intros H.
  assert (Hc : collection w = Some []).
  { unfold collection. destruct H as [-> | ->]; [reflexivity|].
    now rewrite orb_true_r. }
  destruct H as [H | H].
  - exists (recovered w not_found_msg). repeat split.
    + now apply readTasks_absent.
    + rewrite (list_tasks_collection _ _ Hc). unfold after_load. now rewrite H.
  - assert (Ha : absent w = false).
    { unfold absent, unparsable in *. now destruct (TASKS_FILE w). }
    exists (recovered w invalid_msg). repeat split.
    + now apply readTasks_unparsable.
    + rewrite (list_tasks_collection _ _ Hc). unfold after_load. now rewrite Ha, H.
Qed.

Lemma readTasks_recovers_witness :
  (absent garbled_disk = true \/ unparsable garbled_disk = true)
  /\ exists w',
       readTasks garbled_disk = Some (Returns (JArray []), w')
       /\ TASKS_FILE w' = Holds "[]"
       /\ read_and_parse w' = Some (Returns (JArray []), w')
       /\ list_tasks garbled_disk = Some (Returns (content no_tasks_msg), w').
Proof.
  split; [right; reflexivity|].
  apply (readTasks_recovers garbled_disk). right. reflexivity.
Defined.

(** C2 as stated fails.  [getNextId] adds in doubles, and 2^53 + 1 is no
    double: on a store whose greatest id is 2^53 it gives 2^53 again.  So
    it is not the greatest id plus one on every collection, and the task
    that [add_task] adds to that store has the id of the task before it. *)
Lemma getNextId_repeats :
  collection top_disk = Some [top]
  /\ getNextId [top] = id top
  /\ ~ (forall t ts,
          exists m, getNextId (t :: ts) = (m + 1)%Z
                    /\ In m (map id (t :: ts))
                    /\ forall t', In t' (t :: ts) -> (id t' <= m)%Z)
  /\ ~ (forall (inputs : list (string * string)) (w : world) (tasks : list Task),
          collection w = Some tasks ->
          exists w',
            add_tasks inputs w = Some (Returns (map added (new_tasks tasks inputs)), w')
            /\ collection w' = Some (tasks ++ new_tasks tasks inputs)%list
            /\ List.length (tasks ++ new_tasks tasks inputs)
               = List.length tasks + List.length inputs
            /\ forall i j ti tj,
                 nth_error (tasks ++ new_tasks tasks inputs)%list i = Some ti ->
                 nth_error (tasks ++ new_tasks tasks inputs)%list j = Some tj ->
                 i < j -> List.length tasks <= j ->
                 (id ti < id tj)%Z).
Proof.
  assert (Hc : collection top_disk = Some [top]) by (vm_compute; reflexivity).
  split; [exact Hc|]. split; [reflexivity|]. split.
  - intros H. destruct (H top []) as (m & Hm & [<- | []] & _).
    vm_compute in Hm. discriminate.
  - intros H.
    destruct (H [("2024-05-03T08:00:00.000Z", "Call Ana")] top_disk [top] Hc)
      as (w' & _ & _ & _ & Hids).
    specialize (Hids 0 1 top (new_task [top] "2024-05-03T08:00:00.000Z" "Call Ana")
                  eq_refl eq_refl).
    vm_compute in Hids. specialize (Hids (le_n 1) (le_n 1)). discriminate.
Qed.

(** C2, amended: [getNextId] is 1 on the empty collection and, on a
    collection whose ids doubles count exactly (from -2^53 to 2^53 - 1),
    one more than the greatest id; so a row of [add_task] calls, from a
    file that is absent, unparsable or holds a collection whose ids leave
    room for as many new ones below 2^53, answers for one new task per
    call, the collection grows by one task per call, and the id of each new
    task is greater than the id of every task before it. *)
Theorem getNextId_fresh (inputs : list (string * string)) (w : world) (tasks : list Task) :
  collection w = Some tasks ->
  room (List.length inputs) tasks ->
  getNextId [] = 1%Z
  /\ (forall t ts,
        room 1 (t :: ts) ->
        exists m, getNextId (t :: ts) = (m + 1)%Z
                  /\ In m (map id (t :: ts))
                  /\ forall t', In t' (t :: ts) -> (id t' <= m)%Z)
  /\ exists w',
       add_tasks inputs w = Some (Returns (map added (new_tasks tasks inputs)), w')
       /\ collection w' = Some (tasks ++ new_tasks tasks inputs)%list
       /\ List.length (tasks ++ new_tasks tasks inputs)
          = List.length tasks + List.length inputs
       /\ forall i j ti tj,
            nth_error (tasks ++ new_tasks tasks inputs)%list i = Some ti ->
            nth_error (tasks ++ new_tasks tasks inputs)%list j = Some tj ->
            i < j -> List.length tasks <= j ->
            (id ti < id tj)%Z.
Proof.
  intros Hc Hroom. split; [reflexivity|]. split.
  { intros t ts H1. rewrite (getNextId_cons _ _ H1).
    destruct (Math_max_upper (map id ts) (id t)) as (H2 & H3 & H4).
    exists (Math_max (id t) (map id ts)). repeat split; [exact H4|].
    intros t' [<- | Ht']; [exact H2 | apply H3, in_map, Ht']. }
  revert w tasks Hc Hroom.
  induction inputs as [|[now input_title] inputs IH]; intros w tasks Hc Hroom.
  - exists w. cbn [add_tasks new_tasks map List.length]. rewrite List.app_nil_r.
    repeat split; [exact Hc | lia |].
    intros i j ti tj _ Hj _ Hlen.
    assert (j < List.length tasks) by (apply List.nth_error_Some; congruence). lia.
  - set (t := new_task tasks now input_title).
    destruct (room_new_task _ _ now input_title Hroom) as (Hone & Hrest).
    fold t in Hrest.
    destruct (IH (saved (after_load w) (tasks ++ [t])) (tasks ++ [t])%list
                 (collection_saved _ _) Hrest) as (w' & Hrun & Hc' & Hlen & Hids).
    exists w'. cbn [add_tasks new_tasks]. fold t.
    replace (tasks ++ t :: new_tasks (tasks ++ [t]) inputs)%list
      with ((tasks ++ [t]) ++ new_tasks (tasks ++ [t]) inputs)%list
      by (rewrite <- List.app_assoc; reflexivity).
    repeat split.
    + unfold bind at 1. rewrite (add_task_collection _ _ Hc). fold t.
      unfold bind at 1. rewrite Hrun. reflexivity.
    + exact Hc'.
    + rewrite Hlen, List.length_app. cbn [List.length]. lia.
    + intros i j ti tj Hi Hj Hij Hlenj.
      rewrite List.length_app in Hids. cbn [List.length] in Hids.
      destruct (Nat.eq_dec j (List.length tasks)) as [-> | Hne].
      * rewrite <- List.app_assoc in Hi, Hj. cbn [app] in Hi, Hj.
        rewrite List.nth_error_app1 in Hi by lia.
        rewrite List.nth_error_app2, Nat.sub_diag in Hj by lia.
        injection Hj as <-. apply nth_error_In in Hi.
        apply (getNextId_greater tasks ti Hone Hi).
      * apply (Hids i j ti tj Hi Hj Hij). lia.
Qed.

Lemma getNextId_fresh_witness :
  collection sample_disk = Some [milk; report]
  /\ room 1 [milk; report]
  /\ exists w',
       add_tasks [("2024-05-03T08:00:00.000Z", "Call Ana")] sample_disk
       = Some (Returns [added (mkTask 3 "Call Ana" false "2024-05-03T08:00:00.000Z")], w')
       /\ collection w'
          = Some [milk; report; mkTask 3 "Call Ana" false "2024-05-03T08:00:00.000Z"].
Proof.
  assert (Hc : collection sample_disk = Some [milk; report]) by (vm_compute; reflexivity).
  assert (Hroom : room 1 [milk; report])
    by (split; [|repeat constructor]; unfold MAX_SAFE_INTEGER; cbn; lia).
  split; [exact Hc|]. split; [exact Hroom|].
  destruct (getNextId_fresh [("2024-05-03T08:00:00.000Z", "Call Ana")]
              sample_disk [milk; report] Hc Hroom)
    as (_ & _ & w' & Hrun & Hc' & _).
  exists w'. split; [exact Hrun | exact Hc'].
Defined.











(** C8: an error of the try block that is neither ENOENT nor a
    [SyntaxError] leaves [readTasks] as it was thrown, and nothing was
    written: the world is the one before the call.  The handlers do not
    catch it either. *)
Theorem readTasks_rethrows (w w0 : world) (e : error) :
  read_and_parse w = Some (Throws e, w0) ->
  code_is e "ENOENT" = false ->
  instanceof_SyntaxError e = false ->
  readTasks w = Some (Throws e, w)
  /\ (forall now input_title, add_task now input_title w = Some (Throws e, w))
  /\ list_tasks w = Some (Throws e, w)
  /\ (forall input_id, complete_task input_id w = Some (Throws e, w))
  /\ task_list w = Some (Throws e, w).
Proof.
  unfold read_and_parse, bind, fs_readFile, JSON_parse.
  intros Hbody Hcode Hsyn.
  assert (Hread : readTasks w = Some (Throws e, w)).
  { unfold_read.
    destruct (TASKS_FILE w) as [|data|c].
    - injection Hbody as <- <-. discriminate.
    - destruct (parse data); [discriminate|]. injection Hbody as <- <-. discriminate.
    - injection Hbody as <- <-. now rewrite Hcode, Hsyn. }
  unfold add_task, list_tasks, complete_task, task_list, bind.
  rewrite Hread. auto.
Qed.

Lemma readTasks_rethrows_witness :
  read_and_parse locked_disk = Some (Throws (SystemError "EACCES"), locked_disk)
  /\ readTasks locked_disk = Some (Throws (SystemError "EACCES"), locked_disk).
Proof.
  split; [reflexivity|].
  apply (readTasks_rethrows locked_disk locked_disk (SystemError "EACCES"));
    reflexivity.
Defined.

(** C9 as stated fails: on an absent file the two versions of [readTasks]
    return the same array but do not leave the same file. *)
Lemma readTasks_versions_differ :
  ~ (forall w,
       absent w = true \/ unparsable w = true \/ (exists tasks, stored w = Some tasks) ->
       exists r w1 w2,
         readTasks w = Some (r, w1)
         /\ Original.readTasks w = Some (r, w2)
         /\ TASKS_FILE w1 = TASKS_FILE w2).
Proof.
  intros H. destruct (H empty_disk) as (r & w1 & w2 & H1 & H2 & Hfile).
  - left. reflexivity.
  - vm_compute in H1, H2. injection H1 as <- <-. injection H2 as <-.
    discriminate.
Qed.

(** C9, amended: in every state of the file the two versions of
    [readTasks] complete alike, with the same value or the same error.  The
    earlier one never touches the world; the current one leaves the world
    untouched as well, except when the file is absent or unparsable: then
    it leaves a file that holds the text of the empty array. *)
Theorem readTasks_versions (w : world) :
  exists r w1,
    readTasks w = Some (r, w1)
    /\ Original.readTasks w = Some (r, w)
    /\ (if absent w || unparsable w
        then TASKS_FILE w1 = Holds "[]"
        else w1 = w).
Proof.
  unfold Original.readTasks. unfold_read. unfold absent, unparsable.
  destruct w as [f log]. cbn [TASKS_FILE].
  destruct f as [|data|c].
  - eexists. eexists. repeat split.
  - destruct (parse data); eexists; eexists; repeat split.
  - rewrite errno_code_not_ENOENT. eexists. eexists. repeat split.
Qed.

(** C10: [add_task] takes any title, the empty one included: it completes
    without an error flag, and the collection the file holds afterwards
    ends with a task whose title is the given text, character for
    character. *)
Theorem add_task_any_title (now input_title : string) (w : world) (tasks : list Task) :
  collection w = Some tasks ->
  exists r w' t,
    add_task now input_title w = Some (Returns r, w')
    /\ isError r = false
    /\ stored w' = Some (tasks ++ [t])%list
    /\ title t = input_title.
Proof.
  intros Hc. rewrite (add_task_collection _ _ Hc).
  eexists. eexists. eexists. split; [reflexivity|]. split; [reflexivity|].
  split; [apply stored_saved | reflexivity].
Qed.

Lemma add_task_any_title_witness :
  collection sample_disk = Some [milk; report]
  /\ exists r w' t,
       add_task "2024-05-03T08:00:00.000Z" "" sample_disk = Some (Returns r, w')
       /\ isError r = false
       /\ stored w' = Some ([milk; report] ++ [t])%list
       /\ title t = "".
Proof.
  assert (Hc : collection sample_disk = Some [milk; report]) by (vm_compute; reflexivity).
  split; [exact Hc|].
  exact (add_task_any_title "2024-05-03T08:00:00.000Z" "" sample_disk [milk; report] Hc).
Defined.

(** * Further properties of the code *)

(** ** [writeTasks] and [readTasks] *)

Lemma writeTasks_accessible (w : world) (tasks : list Task) :
  (forall e, TASKS_FILE w <> Failing e) ->
  writeTasks tasks w = Some (Returns tt, saved w tasks).
Proof.
  intros H. unfold writeTasks, fs_writeFile, saved.
  destruct (TASKS_FILE w) as [|data|e]; try reflexivity. now elim (H e).
Qed.

Lemma collection_accessible (w : world) (tasks : list Task) :
  collection w = Some tasks -> forall e, TASKS_FILE w <> Failing e.
Proof.
  unfold collection, absent, unparsable, stored. intros H e E.
  rewrite E in H. discriminate.
Qed.

(** X1: what [writeTasks] wrote, [readTasks] reads back: on a file that can
    be accessed, [writeTasks] replaces the contents whatever they were and
    says nothing on the console, and a [readTasks] that follows returns the
    same tasks, in the same order, without touching the file again. *)
Theorem writeTasks_then_readTasks (w : world) (tasks : list Task) :
  (forall e, TASKS_FILE w <> Failing e) ->
  exists w' v,
    writeTasks tasks w = Some (Returns tt, w')
    /\ TASKS_FILE w' = Holds (JSON_stringify tasks)
    /\ stderr w' = stderr w
    /\ readTasks w' = Some (Returns v, w')
    /\ as_tasks v = Some tasks.
Proof.
  intros H. exists (saved w tasks).
  destruct (readTasks_stored _ _ (stored_saved w tasks)) as (v & R & V).
  exists v. repeat split; [now apply writeTasks_accessible | exact R | exact V].
Qed.

Lemma writeTasks_then_readTasks_witness :
  (forall e, TASKS_FILE garbled_disk <> Failing e)
  /\ exists w' v,
       writeTasks [report; milk] garbled_disk = Some (Returns tt, w')
       /\ TASKS_FILE w' = Holds (JSON_stringify [report; milk])
       /\ stderr w' = stderr garbled_disk
       /\ readTasks w' = Some (Returns v, w')
       /\ as_tasks v = Some [report; milk].
Proof.
  assert (H : forall e, TASKS_FILE garbled_disk <> Failing e)
    by (intros e; discriminate).
  split; [exact H|].
  exact (writeTasks_then_readTasks garbled_disk [report; milk] H).
Defined.

(** X2: two collections that [writeTasks] leaves as the same file are the
    same collection: the text determines every task, field by field. *)
Theorem writeTasks_injective (w : world) (tasks tasks' : list Task) (w1 w2 : world) :
  writeTasks tasks w = Some (Returns tt, w1) ->
  writeTasks tasks' w = Some (Returns tt, w2) ->
  TASKS_FILE w1 = TASKS_FILE w2 ->
  tasks = tasks'.
Proof.
  unfold writeTasks, fs_writeFile.
  destruct (TASKS_FILE w) as [|data|e]; try discriminate;
    intros [= <-] [= <-]; cbn [TASKS_FILE]; intros [= E];
    pose proof (parse_stringify tasks) as P; rewrite E, parse_stringify in P;
    injection P as P; apply (f_equal as_task_list) in P;
    rewrite !as_task_list_map in P; congruence.
Qed.

Lemma writeTasks_injective_witness :
  writeTasks [milk] empty_disk = Some (Returns tt, saved empty_disk [milk])
  /\ [milk] = [milk].
Proof.
  split; [reflexivity|].
  apply (writeTasks_injective empty_disk [milk] [milk]
           (saved empty_disk [milk]) (saved empty_disk [milk])); reflexivity.
Defined.

(** X3: [readTasks] does not check what the JSON is.  Whenever the text of
    the file parses, to an array of tasks or to anything else ([null], a
    number, an object), it returns that value as it is, and neither resets
    the file nor writes to the console; the earlier version does the
    same. *)
Theorem readTasks_any_json (w : world) (data : string) (v : json) :
  TASKS_FILE w = Holds data ->
  parse data = Some v ->
  readTasks w = Some (Returns v, w)
  /\ Original.readTasks w = Some (Returns v, w).
Proof.
  intros E P. split; [now apply (readTasks_parsed w data)|].
  unfold Original.readTasks. unfold_read. now rewrite E, P.
Qed.

Lemma readTasks_any_json_witness :
  TASKS_FILE null_disk = Holds "null"
  /\ parse "null" = Some JNull
  /\ readTasks null_disk = Some (Returns JNull, null_disk)
  /\ Original.readTasks null_disk = Some (Returns JNull, null_disk).
Proof.
  split; [reflexivity|]. split; [reflexivity|].
  apply (readTasks_any_json null_disk "null" JNull); reflexivity.
Defined.

Lemma snoc_neq {A} (l : list A) (x : A) : (l ++ [x])%list <> l.
Proof.
  intros H. apply (f_equal (@List.length A)) in H.
  rewrite List.length_app in H. cbn in H. lia.
Qed.

Lemma readTasks_untouched (w w' : world) (r : completion json) :
  readTasks w = Some (r, w') ->
  absent w = false -> unparsable w = false -> w' = w.
Proof.
  intros R A U. revert R. unfold_read. unfold absent, unparsable in *.
  destruct (TASKS_FILE w) as [|data|e]; try discriminate.
  - destruct (parse data); [|discriminate]. now intros [= _ <-].
  - rewrite errno_code_not_ENOENT. cbn. now intros [= _ <-].
Qed.

(** X4: [readTasks] writes to the console exactly when it resets the file,
    one line that tells why: the file was not found, or it held invalid
    JSON.  In every other case, a thrown error included, the console and
    the file are left as they were. *)
Theorem readTasks_logs_resets (w w' : world) (r : completion json) :
  readTasks w = Some (r, w') ->
  (absent w = true ->
     stderr w' = (stderr w ++ [not_found_msg])%list /\ TASKS_FILE w' = Holds "[]")
  /\ (unparsable w = true ->
        stderr w' = (stderr w ++ [invalid_msg])%list /\ TASKS_FILE w' = Holds "[]")
  /\ (absent w = false -> unparsable w = false -> w' = w)
  /\ (stderr w' = stderr w <-> TASKS_FILE w' = TASKS_FILE w).
Proof.
  intros R. destruct (absent w) eqn:A; [|destruct (unparsable w) eqn:U].
  - rewrite (readTasks_absent w A) in R. injection R as <- <-.
    split; [intros _; split; reflexivity|].
    split; [unfold absent, unparsable in *; destruct (TASKS_FILE w); discriminate|].
    split; [discriminate|].
    cbn [recovered stderr TASKS_FILE]. split.
    + intros H. now elim (snoc_neq _ _ H).
    + unfold absent in A. destruct (TASKS_FILE w); discriminate.
  - rewrite (readTasks_unparsable w U) in R. injection R as <- <-.
    split; [discriminate|].
    split; [intros _; split; reflexivity|].
    split; [discriminate|].
    cbn [recovered stderr TASKS_FILE]. split.
    + intros H. now elim (snoc_neq _ _ H).
    + unfold unparsable in U.
      destruct (TASKS_FILE w) as [|data|e]; try discriminate.
      intros [= <-]. discriminate.
  - rewrite (readTasks_untouched w w' r R A U).
    split; [discriminate|]. split; [discriminate|].
    split; [reflexivity|]. split; reflexivity.
Qed.

Lemma readTasks_logs_resets_witness :
  readTasks garbled_disk
  = Some (Returns (JArray []), recovered garbled_disk invalid_msg)
  /\ stderr (recovered garbled_disk invalid_msg)
     = ["tasks.json contains invalid JSON — resetting to empty list."].
Proof.
  split; [reflexivity|].
  destruct (readTasks_logs_resets garbled_disk (recovered garbled_disk invalid_msg)
              (Returns (JArray [])) eq_refl) as (_ & H & _).
  exact (proj1 (H eq_refl)).
Defined.

(** X5: reading twice is reading once.  When [readTasks] returns, a second
    [readTasks] right after it returns the same value and changes nothing:
    a reset is never followed by another one. *)
Theorem readTasks_twice (w w' : world) (v : json) :
  readTasks w = Some (Returns v, w') ->
  readTasks w' = Some (Returns v, w').
Proof.
  intros R. destruct (absent w) eqn:A; [|destruct (unparsable w) eqn:U].
  - rewrite (readTasks_absent w A) in R. injection R as <- <-. reflexivity.
  - rewrite (readTasks_unparsable w U) in R. injection R as <- <-. reflexivity.
  - pose proof (readTasks_untouched w w' _ R A U) as ->. exact R.
Qed.

Lemma readTasks_twice_witness :
  readTasks empty_disk = Some (Returns (JArray []), recovered empty_disk not_found_msg)
  /\ readTasks (recovered empty_disk not_found_msg)
     = Some (Returns (JArray []), recovered empty_disk not_found_msg).
Proof.
  split; [reflexivity|].
  apply (readTasks_twice empty_disk). reflexivity.
Defined.

(** ** Operations one after the other *)


Lemma length_set_completed (k : nat) (tasks : list Task) :
  List.length (set_completed k tasks) = List.length tasks.
Proof.
  revert k. induction tasks as [|t ts IH]; intros k; [reflexivity|].
  destruct k; cbn [set_completed List.length]; [reflexivity | now rewrite IH].
Qed.

Lemma map_id_set_completed (k : nat) (tasks : list Task) :
  map id (set_completed k tasks) = map id tasks.
Proof.
  revert k. induction tasks as [|t ts IH]; intros k; [reflexivity|].
  destruct k; cbn [set_completed map id]; [reflexivity | now rewrite IH].
Qed.

(** What an operation does to the world, through [effect]. *)
Lemma perform_effect (op : operation) (w : world) (tasks : list Task) :
  collection w = Some tasks ->
  exists w',
    perform op w = Some w'
    /\ stored w' = Some (effect op tasks)
    /\ stderr w' = stderr (after_load w).
Proof.
  intros Hc. pose proof (stored_loaded w tasks Hc) as Hs.
  destruct op as [now input_title | | input_id | ]; cbn [perform effect];
    unfold world_after.
  - rewrite (add_task_collection _ _ Hc). eexists. split; [reflexivity|].
    split; [apply stored_saved | reflexivity].
  - rewrite (list_tasks_collection _ _ Hc). eauto.
  - rewrite (complete_task_collection _ _ Hc).
    destruct (find _ tasks) as [[ref task]|]; [|eauto].
    destruct (completed task); [eauto|].
    eexists. split; [reflexivity|]. split; [apply stored_saved | reflexivity].
  - rewrite (task_list_collection _ _ Hc). eauto.
Qed.

Lemma perform_all_effects (ops : list operation) :
  forall w tasks,
    collection w = Some tasks ->
    exists w',
      perform_all ops w = Some w'
      /\ collection w' = Some (effects ops tasks)
      /\ (ops <> [] ->
          stored w' = Some (effects ops tasks)
          /\ stderr w' = stderr (after_load w)).
Proof.
  induction ops as [|op ops IH]; intros w tasks Hc.
  - exists w. split; [reflexivity|]. split; [exact Hc|]. intros Hne. now elim Hne.
  - destruct (perform_effect op w tasks Hc) as (w1 & Hrun & Hs1 & Hlog1).
    destruct (IH w1 _ (stored_collection _ _ Hs1)) as (w2 & Hrun2 & Hc2 & Hrest).
    exists w2. cbn [perform_all effects fold_left]. rewrite Hrun.
    split; [exact Hrun2|]. split; [exact Hc2|]. intros _.
    destruct ops as [|op' ops'].
    + cbn in Hrun2. injection Hrun2 as <-. auto.
    + destruct (Hrest ltac:(discriminate)) as (Hs2 & Hlog2).
      split; [exact Hs2|]. now rewrite Hlog2, (stored_after_load _ _ Hs1).
Qed.

(** X6: a store recovers at most once.  After any first operation on a
    file that is absent, unparsable or holds a collection, the file holds a
    collection; whatever operations follow, none of them writes to the
    console: no later read finds the file missing or invalid. *)
Theorem recovers_at_most_once (op : operation) (ops : list operation)
        (w : world) (tasks : list Task) :
  collection w = Some tasks ->
  exists w1 w2 tasks2,
    perform op w = Some w1
    /\ perform_all ops w1 = Some w2
    /\ stored w2 = Some tasks2
    /\ stderr w2 = stderr w1
    /\ absent w2 = false /\ unparsable w2 = false.
Proof.
  intros Hc.
  destruct (perform_effect op w tasks Hc) as (w1 & Hrun & Hs1 & Hlog1).
  destruct (perform_all_effects ops w1 _ (stored_collection _ _ Hs1))
    as (w2 & Hrun2 & Hc2 & Hrest).
  assert (Hs2 : stored w2 = Some (effects ops (effect op tasks))
                /\ stderr w2 = stderr w1).
  { destruct ops as [|op' ops'].
    - cbn in Hrun2. injection Hrun2 as <-. auto.
    - destruct (Hrest ltac:(discriminate)) as (Hs2 & Hlog2).
      split; [exact Hs2|]. now rewrite Hlog2, (stored_after_load _ _ Hs1). }
  destruct Hs2 as (Hs2 & Hlog2).
  exists w1, w2, (effects ops (effect op tasks)).
  repeat split; try assumption.
  - unfold absent. destruct (stored_holds _ _ Hs2) as [data ->]. reflexivity.
  - revert Hs2. unfold unparsable, stored.
    destruct (TASKS_FILE w2) as [|data|e]; try reflexivity.
    destruct (parse data); [reflexivity | discriminate].
Qed.

Lemma recovers_at_most_once_witness :
  collection garbled_disk = Some []
  /\ exists w1 w2 tasks2,
       perform List garbled_disk = Some w1
       /\ perform_all [Add "2024-05-01T09:30:00.000Z" "Buy milk"; Complete 1; Snapshot] w1
          = Some w2
       /\ stored w2 = Some tasks2
       /\ stderr w2 = stderr w1
       /\ absent w2 = false /\ unparsable w2 = false.
Proof.
  split; [reflexivity|].
  exact (recovers_at_most_once List
           [Add "2024-05-01T09:30:00.000Z" "Buy milk"; Complete 1; Snapshot]
           garbled_disk [] eq_refl).
Defined.

(** ** Ids *)

Lemma Math_max_greatest (t : Task) (ts : list Task) :
  In (Math_max (id t) (map id ts)) (map id (t :: ts))
  /\ forall x, In x (map id (t :: ts)) -> (x <= Math_max (id t) (map id ts))%Z.
Proof.
  cbn [map]. destruct (Math_max_upper (map id ts) (id t)) as (H1 & H2 & H3).
  split; [exact H3|]. intros x [<- | Hx]; [exact H1 | now apply H2].
Qed.

Lemma getNextId_positive (tasks : list Task) :
  room 1 tasks -> Forall (fun t => (0 < id t)%Z) tasks -> (0 < getNextId tasks)%Z.
Proof.
  destruct tasks as [|t ts]; [reflexivity|]. intros Hroom H.
  pose proof (getNextId_greater (t :: ts) t Hroom (or_introl eq_refl)).
  apply Forall_inv in H. lia.
Qed.

Lemma room_set_completed (n k : nat) (tasks : list Task) :
  room n tasks -> room n (set_completed k tasks).
Proof.
  intros (Hn & H). split; [exact Hn|].
  apply (List.Forall_map id
           (fun x => (- MAX_SAFE_INTEGER - 1 <= x
                      /\ x + Z.of_nat n <= MAX_SAFE_INTEGER + 1)%Z)).
  rewrite map_id_set_completed. now apply List.Forall_map.
Qed.

Lemma effect_well_formed (op : operation) (ops : list operation) (tasks : list Task) :
  well_formed tasks ->
  room (count_adds (op :: ops)) tasks ->
  well_formed (effect op tasks) /\ room (count_adds ops) (effect op tasks).
Proof.
  intros (Hd & Hp) Hroom. unfold count_adds in *.
  destruct op as [now input_title | | input_id | ];
    cbn [effect filter is_add List.length] in *;
    try (split; [split|]; assumption).
  - destruct (room_new_task _ _ now input_title Hroom) as (Hone & Hrest).
    split; [split|exact Hrest].
    + rewrite List.map_app.
      apply List.NoDup_app; [exact Hd | repeat constructor; intros [] |].
      intros a Ha [<- | []]. apply List.in_map_iff in Ha as (t & Ht & Hin).
      pose proof (getNextId_greater tasks t Hone Hin). cbn [new_task id] in Ht. lia.
    + apply List.Forall_app. split; [exact Hp|]. repeat constructor.
      cbn [new_task id]. now apply getNextId_positive.
  - destruct (find _ tasks) as [[ref task]|]; [|split; [split|]; assumption].
    destruct (completed task); [split; [split|]; assumption|].
    split; [split|now apply room_set_completed].
    + now rewrite map_id_set_completed.
    + apply (List.Forall_map id (fun x => (0 < x)%Z)).
      rewrite map_id_set_completed. now apply List.Forall_map.
Qed.

Lemma effects_well_formed (ops : list operation) :
  forall tasks,
    well_formed tasks -> room (count_adds ops) tasks ->
    well_formed (effects ops tasks).
Proof.
  induction ops as [|op ops IH]; intros tasks H Hroom; [exact H|].
  destruct (effect_well_formed op ops tasks H Hroom) as (H1 & Hroom1).
  exact (IH _ H1 Hroom1).
Qed.

(** X7: the operations keep the ids positive and pairwise distinct, as
    long as the ids stay where doubles count exactly.  From a file that is
    absent, unparsable or holds a collection with such ids, every run of
    operations that leaves its new ids room below 2^53 ends in a
    collection with such ids. *)
Theorem ids_stay_distinct (ops : list operation) (w : world) (tasks : list Task) :
  collection w = Some tasks ->
  well_formed tasks ->
  room (count_adds ops) tasks ->
  exists w' tasks',
    perform_all ops w = Some w'
    /\ collection w' = Some tasks'
    /\ NoDup (map id tasks')
    /\ Forall (fun t => (0 < id t)%Z) tasks'.
Proof.
  intros Hc Hwf Hroom.
  destruct (perform_all_effects ops w tasks Hc) as (w' & Hrun & Hc' & _).
  destruct (effects_well_formed ops tasks Hwf Hroom) as (Hd & Hp).
  exists w', (effects ops tasks). auto.
Qed.

Lemma ids_stay_distinct_witness :
  collection sample_disk = Some [milk; report]
  /\ well_formed [milk; report]
  /\ room 2 [milk; report]
  /\ exists w' tasks',
       perform_all [Add "2024-05-03T08:00:00.000Z" "Call Ana"; Complete 2;
                    Add "2024-05-03T09:00:00.000Z" "Call Ana"] sample_disk = Some w'
       /\ collection w' = Some tasks'
       /\ NoDup (map id tasks')
       /\ Forall (fun t => (0 < id t)%Z) tasks'.
Proof.
  assert (Hc : collection sample_disk = Some [milk; report]) by (vm_compute; reflexivity).
  assert (Hwf : well_formed [milk; report]).
  { split.
    - cbn. repeat constructor; cbn; intuition discriminate.
    - repeat constructor. }
  assert (Hroom : room 2 [milk; report])
    by (split; [|repeat constructor]; unfold MAX_SAFE_INTEGER; cbn; lia).
  split; [exact Hc|]. split; [exact Hwf|]. split; [exact Hroom|].
  exact (ids_stay_distinct
           [Add "2024-05-03T08:00:00.000Z" "Call Ana"; Complete 2;
            Add "2024-05-03T09:00:00.000Z" "Call Ana"]
           sample_disk [milk; report] Hc Hwf Hroom).
Defined.

(** X8: [getNextId] looks at the ids only, and at them as a set: it gives
    the same id for the same tasks in another order, and marking a task as
    completed does not change the id that comes next. *)
Theorem getNextId_order_blind (tasks tasks' : list Task) (k : nat) :
  Permutation tasks tasks' ->
  getNextId tasks = getNextId tasks'
  /\ getNextId (set_completed k tasks) = getNextId tasks.
Proof.
  intros P. split.
  - destruct tasks as [|t ts].
    + now rewrite (Permutation_nil P).
    + destruct tasks' as [|t' ts'].
      * apply Permutation_sym, Permutation_nil in P. discriminate.
      * destruct (Math_max_greatest t ts) as (Hin & Hmax).
        destruct (Math_max_greatest t' ts') as (Hin' & Hmax').
        pose proof (Permutation_map id P) as Pid.
        apply (Permutation_in _ Pid) in Hin.
        apply (Permutation_in _ (Permutation_sym Pid)) in Hin'.
        specialize (Hmax _ Hin'). specialize (Hmax' _ Hin).
        unfold getNextId. cbn [map]. f_equal. lia.
  - unfold getNextId. now rewrite map_id_set_completed.
Qed.

Lemma getNextId_order_blind_witness :
  Permutation [milk; report] [report; milk]
  /\ getNextId [milk; report] = getNextId [report; milk]
  /\ getNextId (set_completed 0 [milk; report]) = getNextId [milk; report].
Proof.
  split; [apply perm_swap|].
  apply (getNextId_order_blind [milk; report] [report; milk] 0), perm_swap.
Defined.

Lemma new_tasks_ids (inputs : list (string * string)) :
  forall tasks n,
    map id tasks = map Z.of_nat (seq 1 n) ->
    (Z.of_nat (n + List.length inputs) <= MAX_SAFE_INTEGER + 1)%Z ->
    map id (new_tasks tasks inputs)
    = map Z.of_nat (seq (S n) (List.length inputs)).
Proof.
  induction inputs as [|[now input_title] inputs IH]; intros tasks n Hids Hn;
    [reflexivity|].
  cbn [List.length] in Hn.
  assert (Hnext : getNextId tasks = Z.of_nat (S n)).
  { destruct tasks as [|t ts].
    - destruct n; [reflexivity | discriminate].
    - assert (Hroom : room 1 (t :: ts)).
      { split; [unfold MAX_SAFE_INTEGER; lia|]. apply List.Forall_forall.
        intros t' Ht'. apply (in_map id) in Ht'. rewrite Hids in Ht'.
        apply List.in_map_iff in Ht' as (m & <- & Hm). apply List.in_seq in Hm.
        unfold MAX_SAFE_INTEGER in *. lia. }
      rewrite (getNextId_cons _ _ Hroom).
      destruct (Math_max_greatest t ts) as (Hin & Hmax). rewrite Hids in Hin, Hmax.
      apply List.in_map_iff in Hin as (m & Hm & Hin). apply List.in_seq in Hin.
      assert (Hlast : In (Z.of_nat n) (map Z.of_nat (seq 1 n))).
      { apply List.in_map, List.in_seq. destruct n; [cbn in Hids; discriminate | lia]. }
      specialize (Hmax _ Hlast). lia. }
  cbn [new_tasks map List.length seq]. f_equal.
  - cbn [new_task id]. exact Hnext.
  - apply (IH _ (S n)); [|lia]. rewrite List.map_app, Hids. cbn [map new_task id].
    rewrite Hnext, List.seq_S, List.map_app. reflexivity.
Qed.

Lemma new_tasks_titles (inputs : list (string * string)) :
  forall tasks, map title (new_tasks tasks inputs) = map snd inputs.
Proof.
  induction inputs as [|[now input_title] inputs IH]; intros tasks; [reflexivity|].
  cbn [new_tasks map snd new_task title]. now rewrite IH.
Qed.

Lemma add_tasks_run (inputs : list (string * string)) :
  forall w tasks,
    collection w = Some tasks ->
    exists w',
      add_tasks inputs w = Some (Returns (map added (new_tasks tasks inputs)), w')
      /\ collection w' = Some (tasks ++ new_tasks tasks inputs)%list.
Proof.
  induction inputs as [|[now input_title] inputs IH]; intros w tasks Hc.
  - exists w. cbn [add_tasks new_tasks map]. rewrite List.app_nil_r. auto.
  - destruct (IH (saved (after_load w) (tasks ++ [new_task tasks now input_title]))
                 _ (collection_saved _ _)) as (w' & Hrun & Hc').
    exists w'. cbn [add_tasks new_tasks map]. split.
    + unfold bind at 1. rewrite (add_task_collection _ _ Hc).
      unfold bind at 1. rewrite Hrun. reflexivity.
    + rewrite Hc', <- List.app_assoc. reflexivity.
Qed.

(** X9: a store that starts empty numbers its tasks 1, 2, 3, ... in the
    order of the calls, for up to 2^53 calls (an array holds fewer tasks
    than that).  This holds from a missing file and from an unparsable one
    alike: after a reset the numbering starts again at 1. *)
Theorem ids_count_from_one (inputs : list (string * string)) (w : world) :
  collection w = Some [] ->
  (Z.of_nat (List.length inputs) <= 2 ^ 53)%Z ->
  exists w' tasks',
    add_tasks inputs w = Some (Returns (map added tasks'), w')
    /\ collection w' = Some tasks'
    /\ map id tasks' = map Z.of_nat (seq 1 (List.length inputs))
    /\ map title tasks' = map snd inputs.
Proof.
  intros Hc Hn. destruct (add_tasks_run inputs w [] Hc) as (w' & Hrun & Hc').
  exists w', (new_tasks [] inputs). repeat split; try assumption.
  - now apply (new_tasks_ids inputs [] 0).
  - apply new_tasks_titles.
Qed.

Lemma ids_count_from_one_witness :
  collection garbled_disk = Some []
  /\ (Z.of_nat 2 <= 2 ^ 53)%Z
  /\ exists w' tasks',
       add_tasks [("2024-05-01T09:30:00.000Z", "Buy milk");
                  ("2024-05-02T10:00:00.000Z", "Send report")] garbled_disk
       = Some (Returns (map added tasks'), w')
       /\ collection w' = Some tasks'
       /\ map id tasks' = [1; 2]%Z
       /\ map title tasks' = ["Buy milk"; "Send report"].
Proof.
  assert (Hn : (Z.of_nat 2 <= 2 ^ 53)%Z) by (vm_compute; discriminate).
  split; [reflexivity|]. split; [exact Hn|].
  exact (ids_count_from_one
           [("2024-05-01T09:30:00.000Z", "Buy milk");
            ("2024-05-02T10:00:00.000Z", "Send report")] garbled_disk eq_refl Hn).
Defined.

(** ** What [complete_task] reaches *)




Lemma effect_length (op : operation) (tasks : list Task) :
  List.length (effect op tasks)
  = List.length tasks + (if is_add op then 1 else 0).
Proof.
  destruct op as [now input_title | | input_id | ]; cbn [effect is_add];
    try lia.
  - rewrite List.length_app. reflexivity.
  - destruct (find _ tasks) as [[ref task]|]; [|lia].
    destruct (completed task); [lia|]. rewrite length_set_completed. lia.
Qed.

(** X11: tasks are never removed, and only [add_task] makes one: after a
    run of operations the collection has as many tasks more as there were
    [add_task] calls in the run. *)
Theorem only_add_task_adds (ops : list operation) (w : world) (tasks : list Task) :
  collection w = Some tasks ->
  exists w' tasks',
    perform_all ops w = Some w'
    /\ collection w' = Some tasks'
    /\ List.length tasks' = List.length tasks + count_adds ops.
Proof.
  intros Hc.
  destruct (perform_all_effects ops w tasks Hc) as (w' & Hrun & Hc' & _).
  exists w', (effects ops tasks). split; [exact Hrun|]. split; [exact Hc'|].
  clear. revert tasks. unfold count_adds.
  induction ops as [|op ops IH]; intros tasks; [cbn; lia|].
  cbn [effects fold_left filter]. fold (effects ops (effect op tasks)).
  rewrite IH, effect_length. destruct (is_add op); cbn [List.length]; lia.
Qed.

Lemma only_add_task_adds_witness :
  collection sample_disk = Some [milk; report]
  /\ exists w' tasks',
       perform_all [Complete 1; Add "2024-05-03T08:00:00.000Z" "Call Ana"; List;
                    Complete 9; Snapshot] sample_disk = Some w'
       /\ collection w' = Some tasks'
       /\ List.length tasks' = 3.
Proof.
  assert (Hc : collection sample_disk = Some [milk; report]) by (vm_compute; reflexivity).
  split; [exact Hc|].
  exact (only_add_task_adds
           [Complete 1; Add "2024-05-03T08:00:00.000Z" "Call Ana"; List;
            Complete 9; Snapshot] sample_disk [milk; report] Hc).
Defined.



(** ** The earlier server *)

Lemma Original_readTasks_collection (w : world) (tasks : list Task) :
  collection w = Some tasks ->
  exists v, Original.readTasks w = Some (Returns v, w) /\ as_tasks v = Some tasks.
Proof.
  unfold collection, absent, unparsable, stored, Original.readTasks. unfold_read.
  destruct (TASKS_FILE w) as [|data|e]; cbn.
  - intros [= <-]. exists (JArray []). auto.
  - destruct (parse data) as [v|]; cbn.
    + intros H. exists v. auto.
    + intros [= <-]. exists (JArray []). auto.
  - discriminate.
Qed.

(** X14: for [add_task] the two versions of the server do the same: from a
    file that is absent, unparsable or holds a collection, they give the
    same answer and leave the same file.  Only the current one says on the
    console that it had to start afresh. *)
Theorem add_task_versions (now input_title : string) (w : world) (tasks : list Task) :
  collection w = Some tasks ->
  exists r w1 w2,
    add_task now input_title w = Some (Returns r, w1)
    /\ OriginalServer.add_task now input_title w = Some (Returns r, w2)
    /\ TASKS_FILE w1 = TASKS_FILE w2
    /\ stderr w2 = stderr w
    /\ stored w2 = Some (tasks ++ [new_task tasks now input_title])%list.
Proof.
  intros Hc. rewrite (add_task_collection _ _ Hc).
  destruct (Original_readTasks_collection _ _ Hc) as (v & R & V).
  unfold OriginalServer.add_task, bind, typed. rewrite R, V.
  rewrite (writeTasks_accessible w _ (collection_accessible _ _ Hc)).
  eexists. eexists. eexists. split; [reflexivity|]. split; [reflexivity|].
  split; [reflexivity|]. split; [reflexivity | apply stored_saved].
Qed.

Lemma add_task_versions_witness :
  collection garbled_disk = Some []
  /\ exists r w1 w2,
       add_task "2024-05-01T09:30:00.000Z" "Buy milk" garbled_disk = Some (Returns r, w1)
       /\ OriginalServer.add_task "2024-05-01T09:30:00.000Z" "Buy milk" garbled_disk
          = Some (Returns r, w2)
       /\ TASKS_FILE w1 = TASKS_FILE w2
       /\ stderr w2 = stderr garbled_disk
       /\ stored w2 = Some ([] ++ [new_task [] "2024-05-01T09:30:00.000Z" "Buy milk"])%list.
Proof.
  split; [reflexivity|].
  exact (add_task_versions "2024-05-01T09:30:00.000Z" "Buy milk" garbled_disk []
           eq_refl).
Defined.



(** ** What the listing shows after a change *)





